(** * go-access-key-scanner: a shallow embedding of the scanner and its specification

    The repository holds two variants of one program:
    - [src/main.go], the sequential scanner (module [Main] below);
    - [src/unnamed/part_000], the goroutine-per-commit scanner (module
      [Part000] below).

    Both share [getCommitHashes], [checkoutCommit], [searchIAMKeysInFile]
    (up to the two regular expressions) and [searchIAMKeysInRepo]; they
    differ in [validateIAMKey] and in the driver loop of [main].

    Go strings are byte sequences: they are modelled as [string] (a list of
    8-bit [ascii]).  Go maps are modelled as stdpp's [gmap]. *)

From Stdlib Require Import String Ascii List Bool Arith Lia.
From stdpp Require Import base option list sorting gmap strings.
Set Warnings "-register-all".
Import ListNotations.
Local Open Scope string_scope.
Local Open Scope list_scope.

(** ** Results of fallible calls

    A Go call returning [(T, error)] is a [result T]; the error is kept as
    its message, which is all that [fmt.Errorf] prints of it with [%v]. *)

Inductive result (A : Type) : Type :=
| Ok (a : A)
| Err (msg : string).
Arguments Ok {A} a.
Arguments Err {A} msg.

(** The outcome of [exec.Command(...).CombinedOutput()]. *)
Record cmd_result := { cmd_output : string; cmd_err : option string }.

(** ** Byte strings *)

Definition LF : string := String (ascii_of_nat 10) "".

(** [strip_prefix p s] is the rest of [s] after the literal [p], if [s]
    starts with [p]. *)
Fixpoint strip_prefix (p s : string) : option string :=
  match p, s with
  | EmptyString, _ => Some s
  | String a p', String b s' => if Ascii.eqb a b then strip_prefix p' s' else None
  | String _ _, EmptyString => None
  end.

Fixpoint first_strip (ps : list string) (s : string) : option string :=
  match ps with
  | [] => None
  | p :: ps' =>
      match strip_prefix p s with
      | Some t => Some t
      | None => first_strip ps' s
      end
  end.

(** The first [n] bytes of [s]. *)
Fixpoint take_bytes (n : nat) (s : string) : string :=
  match n, s with
  | S n', String a t => String a (take_bytes n' t)
  | _, _ => EmptyString
  end.

(** The text between the start of [s] and the start of its suffix [t]. *)
Definition consumed (s t : string) : string :=
  take_bytes (String.length s - String.length t) s.

(** ** The fragment of Go's [regexp] syntax used by the two programs

    Go's [regexp] walks the input rune by rune.  All the patterns below are
    anchored on ASCII literals, and the only non-ASCII runes they can match
    one by one are the two that Unicode simple case folding adds under
    [(?i)]: U+017F (long s, bytes C5 BF) for [s]/[S] and U+212A (Kelvin sign,
    bytes E2 84 AA) for [k]/[K].  The model therefore works on bytes and
    treats these two runes as multi-byte alternatives. *)

Definition long_s : string :=
  String (ascii_of_nat 197) (String (ascii_of_nat 191) "").
Definition kelvin : string :=
  String (ascii_of_nat 226) (String (ascii_of_nat 132) (String (ascii_of_nat 170) "")).

Definition is_upper (a : ascii) : bool :=
  Nat.leb 65 (nat_of_ascii a) && Nat.leb (nat_of_ascii a) 90.
Definition is_lower (a : ascii) : bool :=
  Nat.leb 97 (nat_of_ascii a) && Nat.leb (nat_of_ascii a) 122.
Definition is_digit (a : ascii) : bool :=
  Nat.leb 48 (nat_of_ascii a) && Nat.leb (nat_of_ascii a) 57.
Definition to_upper (a : ascii) : ascii :=
  if is_lower a then ascii_of_nat (nat_of_ascii a - 32) else a.
Definition to_lower (a : ascii) : ascii :=
  if is_upper a then ascii_of_nat (nat_of_ascii a + 32) else a.

(** The byte strings a literal byte [a] matches under [(?i)]: the orbit of
    [a] under [unicode.SimpleFold]. *)
Definition fold_orbit (a : ascii) : list string :=
  [String (to_upper a) ""; String (to_lower a) ""]
  ++ (if Ascii.eqb (to_upper a) "S"%char then [long_s] else [])
  ++ (if Ascii.eqb (to_upper a) "K"%char then [kelvin] else []).

(** A character class: its ASCII members (as a predicate on one byte), and
    whether it also holds the two folded runes. *)
Record charclass := { cc_byte : ascii -> bool; cc_folded : bool }.

(** One rune of the class at the head of [s]: the rest of [s]. *)
Definition cls_step (c : charclass) (s : string) : option string :=
  match s with
  | EmptyString => None
  | String a t =>
      if cc_byte c a then Some t
      else if cc_folded c then first_strip [long_s; kelvin] s
      else None
  end.

Inductive regex : Type :=
| Lit (fold : bool) (text : string)   (* literal text; [fold] when (?i) is on *)
| Cls (c : charclass)                 (* [...]   *)
| Opt (c : charclass)                 (* [...]?  greedy *)
| Plus (c : charclass)                (* [...]+  greedy *)
| Cat (r1 r2 : regex)                 (* r1 r2   *)
| Alt (r1 r2 : regex)                 (* r1|r2, r1 preferred *)
| Cap (i : nat) (r : regex).          (* the i-th capturing group *)

Fixpoint lit_fold (p s : string) : option string :=
  match p with
  | EmptyString => Some s
  | String a p' =>
      match first_strip (fold_orbit a) s with
      | Some t => lit_fold p' t
      | None => None
      end
  end.

Definition lit_step (fold : bool) (p s : string) : option string :=
  if fold then lit_fold p s else strip_prefix p s.

(** Submatches found so far, by group number. *)
Definition captures := list (nat * string).

Fixpoint capture (cs : captures) (i : nat) : string :=
  match cs with
  | [] => ""
  | (j, v) :: cs' => if Nat.eqb i j then v else capture cs' i
  end.

(** Greedy [c+] followed by the continuation [k]: one rune of [c], then
    as many more as still let [k] succeed.  Every round consumes at least
    one byte, so [String.length s] rounds of fuel are enough. *)
Fixpoint plus_loop {R : Type} (fuel : nat) (c : charclass) (s : string)
    (k : string -> option R) : option R :=
  match fuel with
  | 0 => None
  | S fuel' =>
      match cls_step c s with
      | None => None
      | Some t =>
          match plus_loop fuel' c t k with
          | Some x => Some x
          | None => k t
          end
      end
  end.

(** Backtracking match of [r] at the head of [s], in continuation-passing
    style: alternatives are tried in the order a backtracking engine would
    (Go's leftmost-first rule). *)
Fixpoint rmatch {R : Type} (r : regex) (s : string) (cs : captures)
    (k : string -> captures -> option R) : option R :=
  match r with
  | Lit fold p =>
      match lit_step fold p s with
      | Some t => k t cs
      | None => None
      end
  | Cls c =>
      match cls_step c s with
      | Some t => k t cs
      | None => None
      end
  | Opt c =>
      match (match cls_step c s with
             | Some t => k t cs
             | None => None
             end) with
      | Some x => Some x
      | None => k s cs
      end
  | Plus c => plus_loop (String.length s) c s (fun t => k t cs)
  | Cat r1 r2 => rmatch r1 s cs (fun t cs' => rmatch r2 t cs' k)
  | Alt r1 r2 =>
      match rmatch r1 s cs k with
      | Some x => Some x
      | None => rmatch r2 s cs k
      end
  | Cap i r => rmatch r s cs (fun t cs' => k t ((i, consumed s t) :: cs'))
  end.

Fixpoint ngroups (r : regex) : nat :=
  match r with
  | Lit _ _ | Cls _ | Opt _ | Plus _ => 0
  | Cat r1 r2 | Alt r1 r2 => Nat.max (ngroups r1) (ngroups r2)
  | Cap i r => Nat.max i (ngroups r)
  end.

(** A match at the head of [s]: the submatch slice [[whole; g1; ...; gn]]
    and the number of bytes matched. *)
Definition match_at (re : regex) (s : string) : option (list string * nat) :=
  match rmatch re s [] (fun t cs => Some (t, cs)) with
  | Some (t, cs) =>
      Some (consumed s t :: map (capture cs) (seq 1 (ngroups re)),
            String.length s - String.length t)
  | None => None
  end.

(** [re.FindAllStringSubmatch(s, -1)]: successive non-overlapping leftmost
    matches.  [skip] counts the bytes of the previous match still to be
    stepped over.  The patterns of this program match no empty string
    (they begin with a literal), so the empty-match rule is not needed:
    a zero-length match is passed over. *)
Fixpoint find_all (re : regex) (s : string) (skip : nat) : list (list string) :=
  match s with
  | EmptyString => []
  | String _ t =>
      match skip with
      | S skip' => find_all re t skip'
      | 0 =>
          match match_at re s with
          | Some (m, S len') => m :: find_all re t len'
          | _ => find_all re t 0
          end
      end
  end.

Definition FindAllStringSubmatch (re : regex) (s : string) : list (list string) :=
  find_all re s 0.

(** ** searchIAMKeysInFile *)

(** [match[i]] on a submatch slice. *)
Definition idx (m : list string) (i : nat) : string := nth i m "".

Record patterns := {
  pat_accessKeyID : regex;
  pat_secretAccessKey : regex
}.

(** The pairing loop of [searchIAMKeysInFile]:
<<
  iamKeys := make(map[string]string)
  for _, match := range accessKeyIDs {
    accessKeyID := match[1]
    for _, secretMatch := range secretAccessKeys {
      if secretMatch[0] != EMPTY {
        secretAccessKey := secretMatch[1]
        iamKeys[accessKeyID] = secretAccessKey
      } } }
>> *)
Definition pair_secrets (accessKeyID : string) (secretAccessKeys : list (list string))
    (iamKeys : gmap string string) : gmap string string :=
  foldl (fun iamKeys secretMatch =>
           if negb (String.eqb (idx secretMatch 0) "")
           then <[accessKeyID := idx secretMatch 1]> iamKeys
           else iamKeys)
        iamKeys secretAccessKeys.

Definition combine_keys (accessKeyIDs secretAccessKeys : list (list string))
    : gmap string string :=
  foldl (fun iamKeys match_ => pair_secrets (idx match_ 1) secretAccessKeys iamKeys)
        ∅ accessKeyIDs.

(** What [searchIAMKeysInFile] computes from the content once it is read. *)
Definition extract (pats : patterns) (content : string) : gmap string string :=
  combine_keys (FindAllStringSubmatch (pat_accessKeyID pats) content)
               (FindAllStringSubmatch (pat_secretAccessKey pats) content).

(** [searchIAMKeysInFile]; [read] is the outcome of [ioutil.ReadFile]. *)
Definition searchIAMKeysInFile (pats : patterns) (read : result string)
    : result (gmap string string) :=
  match read with
  | Err e => Err ("failed to read file: " +:+ e)
  | Ok content => Ok (extract pats content)
  end.

(** The candidate pairs in the order the two loops of [searchIAMKeysInFile]
    meet them: every identifier match with every secret match. *)
Definition candidates (accessKeyIDs secretAccessKeys : list (list string))
    : list (string * string) :=
  flat_map (fun match_ =>
              flat_map (fun secretMatch =>
                          if negb (String.eqb (idx secretMatch 0) "")
                          then [(idx match_ 1, idx secretMatch 1)]
                          else [])
                       secretAccessKeys)
           accessKeyIDs.

Definition candidates_of (pats : patterns) (content : string) : list (string * string) :=
  candidates (FindAllStringSubmatch (pat_accessKeyID pats) content)
             (FindAllStringSubmatch (pat_secretAccessKey pats) content).

(** Assigning pairs to a map one after the other, as [iamKeys[k] = v] does. *)
Definition assign_all (cs : list (string * string)) (m : gmap string string)
    : gmap string string :=
  foldl (fun m c => <[c.1 := c.2]> m) m cs.

(** Character classes of the patterns. *)
Definition is_space (a : ascii) : bool :=
  existsb (Nat.eqb (nat_of_ascii a)) [32; 9; 13; 10; 11; 12].
Definition is_word (a : ascii) : bool :=
  is_digit a || is_upper a || is_lower a || Ascii.eqb a "_"%char.

(** [[A-Z0-9]] *)
Definition cc_upper_digit : charclass :=
  {| cc_byte := fun a => is_upper a || is_digit a; cc_folded := false |}.
(** [[^ \t\r\n\v\f]]: every rune but six ASCII ones, so every other byte. *)
Definition cc_non_space : charclass :=
  {| cc_byte := fun a => negb (is_space a); cc_folded := false |}.
(** [[=:]] *)
Definition cc_eq_colon : charclass :=
  {| cc_byte := fun a => Ascii.eqb a "="%char || Ascii.eqb a ":"%char;
     cc_folded := false |}.
(** The class of the two quote characters (bytes 34 and 39). *)
Definition cc_quote : charclass :=
  {| cc_byte := fun a => Nat.eqb (nat_of_ascii a) 34 || Nat.eqb (nat_of_ascii a) 39;
     cc_folded := false |}.
(** [[\w\/\+]] under [(?i)]: folding [\w] adds the long s and the Kelvin sign. *)
Definition cc_word_slash_plus : charclass :=
  {| cc_byte := fun a => is_word a || Ascii.eqb a "/"%char || Ascii.eqb a "+"%char;
     cc_folded := true |}.

(** ** The working tree and filepath.Walk *)

(** What [os.Lstat] and the reads find at a path of the working tree. *)
Inductive node : Type :=
| File (name : string) (data : result string)        (* not a directory; [data] is what ReadFile returns *)
| Dir (name : string) (entries : result (list node)) (* a directory; [entries] is what readDirNames gives *)
| NoStat (name : string) (err : string).             (* Lstat fails *)

Definition node_name (n : node) : string :=
  match n with
  | File name _ | Dir name _ | NoStat name _ => name
  end.

(** [info.IsDir()] *)
Definition IsDir (n : node) : bool :=
  match n with
  | Dir _ _ => true
  | _ => false
  end.

(** [ioutil.ReadFile] on the path of [n]. *)
Definition ReadFile (n : node) : result string :=
  match n with
  | File _ data => data
  | Dir _ _ => Err "is a directory"
  | NoStat _ e => Err e
  end.

(** [filepath.Join(path, name)] for a clean [path] and a plain [name]. *)
Definition Join (path name : string) : string := path +:+ "/" +:+ name.

Section Walk.
Context {S : Type}.

(** The callback: path, file info (here the node itself), the error Walk
    met on the way to it, and the state the Go closure captures. *)
Variable walkFn : string -> node -> option string -> S -> S * option string.

(** The loop of [filepath.walk] over the names of a directory: it stops
    at the first entry whose visit returns an error. *)
Fixpoint walk_names (visit : string -> node -> S -> S * option string)
    (path : string) (names : list node) (st : S) : S * option string :=
  match names with
  | [] => (st, None)
  | child :: names' =>
      match visit (Join path (node_name child)) child st with
      | (st', None) => walk_names visit path names' st'
      | (st', Some e) => (st', Some e)
      end
  end.

(** [filepath.walk] of the standard library.  The callbacks of this
    program never return [SkipDir] or [SkipAll], so a non-nil error from
    the callback always ends the walk. *)
Fixpoint walk (path : string) (info : node) (st : S) : S * option string :=
  match info with
  | NoStat _ e => walkFn path info (Some e) st
  | File _ _ => walkFn path info None st
  | Dir _ entries =>
      let err := match entries with Err e => Some e | Ok _ => None end in
      let '(st1, err1) := walkFn path info err st in
      match entries, err1 with
      | Ok names, None =>
          walk_names (fun path child st => walk path child st) path names st1
      | _, _ => (st1, err1)
      end
  end.

Definition Walk (root : string) (tree : node) (st : S) : S * option string :=
  walk root tree st.
End Walk.

(** ** searchIAMKeysInRepo *)

(** The closure state of the Walk callback: the map being filled, and (as a
    ghost log) the paths handed to [searchIAMKeysInFile], in order. *)
Record scan_state := {
  foundIAMKeys : gmap string (gmap string string);
  reads : list string
}.

Definition scan_file (pats : patterns) (path : string) (info : node)
    (err : option string) (st : scan_state) : scan_state * option string :=
  match err with
  | Some e => (st, Some e)
  | None =>
      if IsDir info then (st, None)
      else
        let st := {| foundIAMKeys := foundIAMKeys st; reads := reads st ++ [path] |} in
        match searchIAMKeysInFile pats (ReadFile info) with
        | Err e => (st, Some ("failed to search IAM keys in file: " +:+ e))
        | Ok iamKeys =>
            if Nat.ltb 0 (size iamKeys)
            then ({| foundIAMKeys := <[path := iamKeys]> (foundIAMKeys st);
                     reads := reads st |}, None)
            else (st, None)
        end
  end.

Definition scan_tree (pats : patterns) (repoPath : string) (tree : node)
    : scan_state * option string :=
  Walk (scan_file pats) repoPath tree {| foundIAMKeys := ∅; reads := [] |}.

Definition searchIAMKeysInRepo (pats : patterns) (repoPath : string) (tree : node)
    : result (gmap string (gmap string string)) :=
  match scan_tree pats repoPath tree with
  | (_, Some e) => Err ("failed to search IAM keys in repository: " +:+ e)
  | (st, None) => Ok (foundIAMKeys st)
  end.

(** The files [searchIAMKeysInRepo] read on the way, whether it failed or not. *)
Definition files_read (pats : patterns) (repoPath : string) (tree : node) : list string :=
  reads (fst (scan_tree pats repoPath tree)).

(** ** The outside world *)

(** Errors of the AWS SDK: an [awserr.Error] with its code, or another error. *)
Inductive sdk_error : Type :=
| AwsErr (code : string) (message : string)
| OtherErr (message : string).

(** [*iam.GetAccessKeyLastUsedOutput] (nil, or with a possibly nil UserName). *)
Definition last_used_output : Type := option (option string).

Record World := {
  temp_dir : result string;                    (* ioutil.TempDir *)
  git_clone : string -> string -> cmd_result;  (* git clone url dir *)
  chdir : string -> option string;             (* os.Chdir *)
  git_log : cmd_result;                        (* git log --pretty=format:%H *)
  git_checkout : string -> cmd_result;         (* git checkout commit *)
  tree_of : string -> node;                    (* the working tree a successful checkout leaves *)
  cloned_tree : node;                          (* the working tree the clone leaves *)
  new_session : option string;                 (* session.NewSession *)
  GetCallerIdentity : string -> string -> option sdk_error;       (* sts, with the static credentials *)
  GetAccessKeyLastUsed : string -> last_used_output * option sdk_error; (* iam *)
  elapsed : string    (* time.Since(startTime).Round(time.Second / 100).String() *)
}.

(** The working tree: its files, and (as a ghost field) the loop index of
    the checkout that produced them ([None] for the clone). *)
Record worktree := { wt_rev : option nat; wt_root : node }.

Definition cloneRepo (w : World) (url : string) : result string :=
  match temp_dir w with
  | Err e => Err ("failed to create temporary directory: " +:+ e)
  | Ok tempDir =>
      match cmd_err (git_clone w url tempDir) with
      | Some e => Err ("failed to clone repository: " +:+ e +:+ ". Output: "
                       +:+ cmd_output (git_clone w url tempDir))
      | None => Ok tempDir
      end
  end.

(** [strings.Split(s, "\n")] *)
Fixpoint Split_LF (s : string) : list string :=
  match s with
  | EmptyString => [""]
  | String a t =>
      if Ascii.eqb a (ascii_of_nat 10) then "" :: Split_LF t
      else match Split_LF t with
           | piece :: pieces => String a piece :: pieces
           | [] => [String a ""]
           end
  end.

Definition getCommitHashes (w : World) (repoPath : string) : result (list string) :=
  match chdir w repoPath with
  | Some e => Err ("failed to change working directory: " +:+ e)
  | None =>
      match cmd_err (git_log w) with
      | Some e => Err ("failed to get commit hashes: " +:+ e +:+ ". Output: "
                       +:+ cmd_output (git_log w))
      | None => Ok (Split_LF (cmd_output (git_log w)))
      end
  end.

(** [checkoutCommit]: [None] is Go's nil error. *)
Definition checkoutCommit (w : World) (repoPath commitHash : string) : option string :=
  match chdir w repoPath with
  | Some e => Some ("failed to change working directory: " +:+ e)
  | None =>
      match cmd_err (git_checkout w commitHash) with
      | Some e => Some ("failed to checkout commit: " +:+ e +:+ ". Output: "
                        +:+ cmd_output (git_checkout w commitHash))
      | None => None
      end
  end.

(** The effect of the [i]-th checkout on the working tree. *)
Definition checked_out (w : World) (i : nat) (commitHash : string) : worktree :=
  {| wt_rev := Some i; wt_root := tree_of w commitHash |}.

(** The working tree when [main] enters its loop. *)
Definition cloned (w : World) : worktree :=
  {| wt_rev := None; wt_root := cloned_tree w |}.

(** ** What a run does, as a trace *)

Inductive Event : Type :=
| EvCheckout (i : nat) (commitHash : string)
    (* checkoutCommit called (and returned) for the i-th commit of the list *)
| EvRead (i : nat) (path : string) (seen : option nat)
    (* a file read by the scan of the i-th commit; [seen] is the checkout
       whose content the working tree held at that moment *)
| EvValidate (i : nat) (path accessKeyID secretAccessKey : string)
    (* validateIAMKey called for a key found at [path] in the i-th commit *)
| EvPrint (line : string).

Inductive Exit : Type :=
| Done                    (* main returns *)
| Fatal (msg : string).   (* log.Fatal / log.Fatalf *)

(** Go ranges over a map in an unspecified order.  [range_order] stands for
    the order a run happens to take; the drivers below are parametric in it. *)
Definition range_fn : Type := forall A : Type, gmap string A -> list (string * A).

(** The keys a driver hands to [validateIAMKey] for one commit, as
    (path, accessKeyID, secretAccessKey), in the order of its two nested
    [range] loops. *)
Definition keys_in_order (range_order : range_fn)
    (found : gmap string (gmap string string)) : list (string * string * string) :=
  flat_map (fun '(path, iamKeys) =>
              map (fun '(accessKeyID, secretAccessKey) =>
                     (path, accessKeyID, secretAccessKey))
                  (range_order _ iamKeys))
           (range_order _ found).

(** The lines both variants of [main] print: for a valid key, and when
    no valid key was found. *)
Definition valid_key_line (commitHash accessKeyID : string) : string :=
  "Valid IAM key found in commit " +:+ commitHash +:+ ": " +:+ accessKeyID +:+ LF.

Definition no_valid_keys_line : string :=
  LF +:+ "No valid IAM keys found in the repository." +:+ LF.

(** * src/main.go *)

Module Main.

(** [regexp.MustCompile(`AWS_ACCESS_KEY_ID=([A-Z0-9]+)`)] *)
Definition accessKeyIDPattern : regex :=
  Cat (Lit false "AWS_ACCESS_KEY_ID=") (Cap 1 (Plus cc_upper_digit)).

(** [regexp.MustCompile(`(?i)AWS_SECRET_ACCESS_KEY=([^ \t\r\n\v\f]+)`)] *)
Definition secretAccessKeyPattern : regex :=
  Cat (Lit true "AWS_SECRET_ACCESS_KEY=") (Cap 1 (Plus cc_non_space)).

Definition pats : patterns :=
  {| pat_accessKeyID := accessKeyIDPattern;
     pat_secretAccessKey := secretAccessKeyPattern |}.

(** [validateIAMKey]: sts.GetCallerIdentity with the found key pair. *)
Definition validateIAMKey (w : World) (accessKeyID secretAccessKey : string) : bool :=
  match new_session w with
  | Some _ => false
  | None =>
      match GetCallerIdentity w accessKeyID secretAccessKey with
      | Some _ => false
      | None => true
      end
  end.

(** One line for each validation call of the trace that finds its key
    valid, naming the commit of the call and the identifier. *)
Definition valid_lines (w : World) (commitHashes : list string) (trace : list Event)
    : list string :=
  flat_map (fun e => match e with
                     | EvValidate i _ accessKeyID secretAccessKey =>
                         if validateIAMKey w accessKeyID secretAccessKey
                         then [valid_key_line (nth i commitHashes "") accessKeyID]
                         else []
                     | _ => []
                     end) trace.

Section Driver.
Variable range_order : range_fn.
Variable w : World.
Variable repoPath : string.

(** The body of the two validation loops for one key. *)
Definition validate_key (i : nat) (commitHash : string)
    (key : string * string * string) : list Event :=
  let '(path, accessKeyID, secretAccessKey) := key in
  EvValidate i path accessKeyID secretAccessKey ::
  (if validateIAMKey w accessKeyID secretAccessKey
   then [EvPrint (valid_key_line commitHash accessKeyID)]
   else []).

Definition key_valid (key : string * string * string) : bool :=
  let '(_, accessKeyID, secretAccessKey) := key in
  validateIAMKey w accessKeyID secretAccessKey.

(** One round of the loop over [commitHashes]: the events it adds, the
    working tree it leaves, and either the fatal message or whether a
    valid key was found. *)
Definition scan_commit (i : nat) (commitHash : string) (wt : worktree)
    : list Event * worktree * result bool :=
  match checkoutCommit w repoPath commitHash with
  | Some e =>
      ([EvCheckout i commitHash], wt,
       Err ("Error checking out commit " +:+ commitHash +:+ ": " +:+ e))
  | None =>
      let wt := checked_out w i commitHash in
      let read_events :=
        map (fun path => EvRead i path (wt_rev wt))
            (files_read pats repoPath (wt_root wt)) in
      match searchIAMKeysInRepo pats repoPath (wt_root wt) with
      | Err e =>
          (EvCheckout i commitHash :: read_events, wt,
           Err ("Error searching for IAM keys: " +:+ e))
      | Ok foundIAMKeys =>
          let keys := keys_in_order range_order foundIAMKeys in
          (EvCheckout i commitHash :: read_events
             ++ flat_map (validate_key i commitHash) keys,
           wt, Ok (existsb key_valid keys))
      end
  end.

(** [for _, commitHash := range commitHashes { ... }], from index [i]. *)
Fixpoint scan_commits (commitHashes : list string) (i : nat) (wt : worktree)
    (validKeysFound : bool) : list Event * result bool :=
  match commitHashes with
  | [] => ([], Ok validKeysFound)
  | commitHash :: rest =>
      match scan_commit i commitHash wt with
      | (events, _, Err msg) => (events, Err msg)
      | (events, wt', Ok valid) =>
          let '(events', r) := scan_commits rest (S i) wt' (validKeysFound || valid) in
          (events ++ events', r)
      end
  end.
End Driver.

(** [main], with the value of the [-repo] flag. *)
Definition main (range_order : range_fn) (w : World) (repoURL : string)
    : list Event * Exit :=
  if String.eqb repoURL "" then
    ([], Fatal "Please provide a GitHub repository URL using the -repo flag.")
  else
    match cloneRepo w repoURL with
    | Err e => ([], Fatal ("Error cloning repository: " +:+ e))
    | Ok repoPath =>
        match getCommitHashes w repoPath with
        | Err e => ([], Fatal ("Error getting commit hashes: " +:+ e))
        | Ok commitHashes =>
            match scan_commits range_order w repoPath commitHashes 0 (cloned w) false with
            | (events, Err msg) => (events, Fatal msg)
            | (events, Ok validKeysFound) =>
                (events ++
                   (if validKeysFound then [] else [EvPrint no_valid_keys_line]),
                 Done)
            end
        end
    end.

End Main.

(** * src/unnamed/part_000 *)

Module Part000.

(** [(?i)(AWS_ACCESS_KEY_ID|aws_access_key_id)[=:]Q?([\w\/\+]+)Q?], where
    Q is the class of the double and the single quote. *)
Definition accessKeyIDPattern : regex :=
  Cat (Cap 1 (Alt (Lit true "AWS_ACCESS_KEY_ID") (Lit true "aws_access_key_id")))
   (Cat (Cls cc_eq_colon)
    (Cat (Opt cc_quote)
     (Cat (Cap 2 (Plus cc_word_slash_plus))
          (Opt cc_quote)))).

(** [(?i)(AWS_SECRET_ACCESS_KEY|aws_secret_access_key)[=:]Q?([^ \t\r\n\v\f]+)Q?],
    with Q as above. *)
Definition secretAccessKeyPattern : regex :=
  Cat (Cap 1 (Alt (Lit true "AWS_SECRET_ACCESS_KEY") (Lit true "aws_secret_access_key")))
   (Cat (Cls cc_eq_colon)
    (Cat (Opt cc_quote)
     (Cat (Cap 2 (Plus cc_non_space))
          (Opt cc_quote)))).

Definition pats : patterns :=
  {| pat_accessKeyID := accessKeyIDPattern;
     pat_secretAccessKey := secretAccessKeyPattern |}.

(** [iam.ErrCodeNoSuchEntityException] *)
Definition ErrCodeNoSuchEntityException : string := "NoSuchEntity".

(** [validateIAMKey]: iam.GetAccessKeyLastUsed on the identifier, under
    the ambient credentials; the secret takes no part. *)
Definition validateIAMKey (w : World) (accessKeyID secretAccessKey : string) : bool :=
  match new_session w with
  | Some _ => false
  | None =>
      match GetAccessKeyLastUsed w accessKeyID with
      | (_, Some (AwsErr code _)) =>
          if String.eqb code ErrCodeNoSuchEntityException then false else false
      | (_, Some (OtherErr _)) => false
      | (Some (Some _), None) => true
      | (_, None) => false
      end
  end.

(** The line [main] prints last: the time the run took. *)
Definition total_time_line (duration : string) : string :=
  LF +:+ "Total time taken: " +:+ duration +:+ LF.

(** ** The goroutines of [main], as an interleaving machine

    [main] starts one goroutine per commit; each of them starts one
    goroutine per key it finds.  Nothing orders the goroutines but the
    error channel, so a run is any interleaving of their steps.  One
    step is one call that touches shared state: a checkout, a scan of
    the working tree (taken as one step, which only removes
    interleavings), a validation, a channel send or receive. *)

(** Where a per-commit goroutine stands. *)
Inductive commit_pc : Type :=
| AtCheckout
| AtScan
| AtValidate (keys : list (string * string * string))
| AtSend (msg : string)     (* errChan <- msg *)
| Returned.

Record commit_goroutine := {
  cg_index : nat;
  cg_commit : string;
  cg_pc : commit_pc
}.

(** A per-key goroutine that has not run yet. *)
Record key_goroutine := {
  kg_index : nat;
  kg_commit : string;
  kg_path : string;
  kg_accessKeyID : string;
  kg_secretAccessKey : string;
  kg_done : bool
}.

(** Where the main goroutine stands. *)
Inductive main_pc : Type :=
| Spawning (i : nat) (rest : list string)  (* in the loop that starts the goroutines *)
| Selecting (todo : nat)                   (* in the loop of non-blocking receives *)
| Exited (e : Exit).

Record state := {
  st_main : main_pc;
  st_commits : list commit_goroutine;
  st_keys : list key_goroutine;
  st_wt : worktree;
  st_errChan : option string;    (* make(chan error, 1) *)
  st_validKeysFound : bool;
  st_trace : list Event
}.

Inductive thread : Type :=
| TMain
| TCommit (n : nat)   (* the n-th per-commit goroutine started *)
| TKey (n : nat).     (* the n-th per-key goroutine started *)

Section Machine.
Variable range_order : range_fn.
Variable w : World.
Variable repoPath : string.
Variable commitHashes : list string.

Definition init (wt : worktree) : state :=
  {| st_main := Spawning 0 commitHashes;
     st_commits := [];
     st_keys := [];
     st_wt := wt;
     st_errChan := None;
     st_validKeysFound := false;
     st_trace := [] |}.

Definition step_main (s : state) : option state :=
  match st_main s with
  | Spawning i (commitHash :: rest) =>
      Some {| st_main := Spawning (S i) rest;
              st_commits := st_commits s ++
                [{| cg_index := i; cg_commit := commitHash; cg_pc := AtCheckout |}];
              st_keys := st_keys s; st_wt := st_wt s;
              st_errChan := st_errChan s;
              st_validKeysFound := st_validKeysFound s;
              st_trace := st_trace s |}
  | Spawning _ [] =>
      Some {| st_main := Selecting (length commitHashes);
              st_commits := st_commits s; st_keys := st_keys s;
              st_wt := st_wt s; st_errChan := st_errChan s;
              st_validKeysFound := st_validKeysFound s;
              st_trace := st_trace s |}
  | Selecting (S todo) =>
      match st_errChan s with
      | Some err =>
          Some {| st_main := Exited (Fatal err);
                  st_commits := st_commits s; st_keys := st_keys s;
                  st_wt := st_wt s; st_errChan := None;
                  st_validKeysFound := st_validKeysFound s;
                  st_trace := st_trace s |}
      | None =>
          Some {| st_main := Selecting todo;
                  st_commits := st_commits s; st_keys := st_keys s;
                  st_wt := st_wt s; st_errChan := None;
                  st_validKeysFound := st_validKeysFound s;
                  st_trace := st_trace s |}
      end
  | Selecting 0 =>
      Some {| st_main := Exited Done;
              st_commits := st_commits s; st_keys := st_keys s;
              st_wt := st_wt s; st_errChan := st_errChan s;
              st_validKeysFound := st_validKeysFound s;
              st_trace := st_trace s ++
                (if st_validKeysFound s then [] else [EvPrint no_valid_keys_line]) ++
                [EvPrint (total_time_line (elapsed w))] |}
  | Exited _ => None
  end.

Definition set_commit (s : state) (n : nat) (g : commit_goroutine)
    (wt : worktree) (errChan : option string) (keys : list key_goroutine)
    (events : list Event) : state :=
  {| st_main := st_main s;
     st_commits := <[n := g]> (st_commits s);
     st_keys := st_keys s ++ keys;
     st_wt := wt;
     st_errChan := errChan;
     st_validKeysFound := st_validKeysFound s;
     st_trace := st_trace s ++ events |}.

Definition at_pc (g : commit_goroutine) (pc : commit_pc) : commit_goroutine :=
  {| cg_index := cg_index g; cg_commit := cg_commit g; cg_pc := pc |}.

Definition step_commit (s : state) (n : nat) : option state :=
  match st_commits s !! n with
  | None => None
  | Some g =>
      let i := cg_index g in
      let commitHash := cg_commit g in
      match cg_pc g with
      | AtCheckout =>
          match checkoutCommit w repoPath commitHash with
          | Some e =>
              Some (set_commit s n
                      (at_pc g (AtSend ("error checking out commit " +:+ commitHash
                                        +:+ ": " +:+ e)))
                      (st_wt s) (st_errChan s) [] [EvCheckout i commitHash])
          | None =>
              Some (set_commit s n (at_pc g AtScan)
                      (checked_out w i commitHash) (st_errChan s) []
                      [EvCheckout i commitHash])
          end
      | AtScan =>
          let read_events :=
            map (fun path => EvRead i path (wt_rev (st_wt s)))
                (files_read pats repoPath (wt_root (st_wt s))) in
          match searchIAMKeysInRepo pats repoPath (wt_root (st_wt s)) with
          | Err e =>
              Some (set_commit s n
                      (at_pc g (AtSend ("error searching for IAM keys in commit "
                                        +:+ commitHash +:+ ": " +:+ e)))
                      (st_wt s) (st_errChan s) [] read_events)
          | Ok foundIAMKeys =>
              Some (set_commit s n
                      (at_pc g (AtValidate (keys_in_order range_order foundIAMKeys)))
                      (st_wt s) (st_errChan s) [] read_events)
          end
      | AtValidate [] =>
          Some (set_commit s n (at_pc g Returned) (st_wt s) (st_errChan s) [] [])
      | AtValidate ((path, accessKeyID, secretAccessKey) :: keys) =>
          (* fmt.Println(validateIAMKey(...)); go func(...){...}(...) *)
          Some (set_commit s n (at_pc g (AtValidate keys)) (st_wt s) (st_errChan s)
                  [{| kg_index := i; kg_commit := commitHash; kg_path := path;
                      kg_accessKeyID := accessKeyID;
                      kg_secretAccessKey := secretAccessKey;
                      kg_done := false |}]
                  [EvValidate i path accessKeyID secretAccessKey;
                   EvPrint ((if validateIAMKey w accessKeyID secretAccessKey
                             then "true" else "false") +:+ LF)])
      | AtSend msg =>
          match st_errChan s with
          | None => Some (set_commit s n (at_pc g Returned) (st_wt s) (Some msg) [] [])
          | Some _ => None    (* the buffer is full: the send blocks *)
          end
      | Returned => None
      end
  end.

Definition step_key (s : state) (n : nat) : option state :=
  match st_keys s !! n with
  | None => None
  | Some k =>
      if kg_done k then None
      else
        let valid := validateIAMKey w (kg_accessKeyID k) (kg_secretAccessKey k) in
        Some {| st_main := st_main s;
                st_commits := st_commits s;
                st_keys := <[n := {| kg_index := kg_index k; kg_commit := kg_commit k;
                                     kg_path := kg_path k;
                                     kg_accessKeyID := kg_accessKeyID k;
                                     kg_secretAccessKey := kg_secretAccessKey k;
                                     kg_done := true |}]> (st_keys s);
                st_wt := st_wt s;
                st_errChan := st_errChan s;
                st_validKeysFound := st_validKeysFound s || valid;
                st_trace := st_trace s ++
                  EvValidate (kg_index k) (kg_path k) (kg_accessKeyID k)
                             (kg_secretAccessKey k) ::
                  (if valid
                   then [EvPrint (valid_key_line (kg_commit k) (kg_accessKeyID k))]
                   else []) |}
  end.

(** One step of thread [t]; [None] when [t] cannot move (it has
    returned, is blocked, does not exist, or the process has exited). *)
Definition step (s : state) (t : thread) : option state :=
  match st_main s with
  | Exited _ => None
  | _ =>
      match t with
      | TMain => step_main s
      | TCommit n => step_commit s n
      | TKey n => step_key s n
      end
  end.

(** The state a schedule leads to; [None] if it asks a thread to move
    that cannot. *)
Fixpoint run (sched : list thread) (s : state) : option state :=
  match sched with
  | [] => Some s
  | t :: sched' =>
      match step s t with
      | Some s' => run sched' s'
      | None => None
      end
  end.
End Machine.

(** A state [main] can reach: clone, list the commits, then any schedule. *)
Definition reachable (range_order : range_fn) (w : World) (repoURL : string)
    (s : state) : Prop :=
  exists repoPath commitHashes sched,
    String.eqb repoURL "" = false /\
    cloneRepo w repoURL = Ok repoPath /\
    getCommitHashes w repoPath = Ok commitHashes /\
    run range_order w repoPath commitHashes sched (init commitHashes (cloned w)) = Some s.

End Part000.

(** ** Reading trees and traces *)

(** Whether the walk of [n] can come upon a file that cannot be read. *)
Fixpoint unreadable_file (n : node) : bool :=
  match n with
  | File _ (Err _) => true
  | File _ (Ok _) => false
  | Dir _ (Ok names) => existsb unreadable_file names
  | Dir _ (Err _) => false
  | NoStat _ _ => false
  end.

(** The nodes Walk comes to under [path] when nothing stops it, in the
    order it hands them to the callback, each with its path: a directory,
    then what lies under its entries, entry by entry. *)
Fixpoint nodes_of (path : string) (n : node) : list (string * node) :=
  (path, n) ::
  match n with
  | Dir _ (Ok names) =>
      flat_map (fun child => nodes_of (Join path (node_name child)) child) names
  | _ => []
  end.

(** Whether the callback of [searchIAMKeysInRepo] returns an error at
    [n]: Lstat failed, the directory could not be listed, or the file
    could not be read. *)
Definition fails_at (n : node) : bool :=
  match n with
  | File _ (Err _) | Dir _ (Err _) | NoStat _ _ => true
  | File _ (Ok _) | Dir _ (Ok _) => false
  end.

Definition no_failure (nodes : list (string * node)) : bool :=
  forallb (fun x => negb (fails_at x.2)) nodes.

(** The nodes up to the first one at which the callback fails, that one
    included. *)
Fixpoint up_to_failure (nodes : list (string * node)) : list (string * node) :=
  match nodes with
  | [] => []
  | x :: nodes' => if fails_at x.2 then [x] else x :: up_to_failure nodes'
  end.

(** The paths of the files among [nodes]: directories and nodes that
    cannot be stat'ed are not handed to [searchIAMKeysInFile]. *)
Definition file_paths (nodes : list (string * node)) : list string :=
  flat_map (fun x => match x.2 with
                     | File _ _ => [x.1]
                     | _ => []
                     end) nodes.

(** The result [r] of a walk over [nodes] from state [st]: the files read
    are those among the nodes up to the first failure, and the walk
    returns no error exactly when there is no failure. *)
Definition reads_up_to_failure (nodes : list (string * node)) (st : scan_state)
    (r : scan_state * option string) : Prop :=
  reads r.1 = reads st ++ file_paths (up_to_failure nodes)
  /\ (r.2 = None <-> no_failure nodes = true).

(** The commit (by its place in the list) an event belongs to. *)
Definition ev_index (e : Event) : option nat :=
  match e with
  | EvCheckout i _ | EvRead i _ _ | EvValidate i _ _ _ => Some i
  | EvPrint _ => None
  end.

(** Whether [e] is a validation call for identifier [id]. *)
Definition validates (id : string) (e : Event) : bool :=
  match e with
  | EvValidate _ _ accessKeyID _ => String.eqb accessKeyID id
  | _ => false
  end.

(** The number of validation calls made for [id] in a trace. *)
Definition validation_calls (trace : list Event) (id : string) : nat :=
  length (List.filter (validates id) trace).

(** The place of an event in the cycle of its commit: checkout, then
    reads, then validations.  Printed lines have no place of their own. *)
Definition rank (e : Event) : option nat :=
  match e with
  | EvCheckout i _ => Some (3 * i)
  | EvRead i _ _ => Some (3 * i + 1)
  | EvValidate i _ _ _ => Some (3 * i + 2)
  | EvPrint _ => None
  end.

(** [e1] does not belong after [e2]. *)
Definition in_order (e1 e2 : Event) : Prop :=
  forall r1 r2, rank e1 = Some r1 -> rank e2 = Some r2 -> r1 <= r2.

(** An event of the validation loops of commit [i]. *)
Definition validation_phase (i : nat) (e : Event) : Prop :=
  match e with
  | EvValidate j _ _ _ => j = i
  | EvPrint _ => True
  | _ => False
  end.

(** Every file read of the trace saw the tree of its own commit, and
    follows a checkout of that commit. *)
Definition reads_follow_checkout (trace : list Event) : Prop :=
  forall m i path seen,
    trace !! m = Some (EvRead i path seen) ->
    seen = Some i /\ exists n commitHash, n < m /\ trace !! n = Some (EvCheckout i commitHash).

(** Bounds on the places of the events of a trace. *)
Definition ranks_at_least (lo : nat) (trace : list Event) : Prop :=
  Forall (fun e => forall r, rank e = Some r -> lo <= r) trace.
Definition ranks_at_most (hi : nat) (trace : list Event) : Prop :=
  Forall (fun e => forall r, rank e = Some r -> r <= hi) trace.

(** The events of a trace that belong to a commit belong to one of the
    commits [lo], ..., [hi - 1]. *)
Definition indices_within (lo hi : nat) (trace : list Event) : Prop :=
  Forall (fun e => forall j, ev_index e = Some j -> lo <= j < hi) trace.

(** Whether the keys found in one file hold identifier [id]. *)
Definition holds (id : string) (entry : string * gmap string string) : Prop :=
  is_Some (entry.2 !! id).

(** The number of files of one scan in which [id] was found. *)
Definition files_holding (found : gmap string (gmap string string)) (id : string) : nat :=
  length (filter (holds id) (map_to_list found)).

(** The number of (revision, file) pairs at which the scans of the given
    commits find [id]. *)
Definition occurrences (pats : patterns) (w : World) (repoPath : string)
    (commitHashes : list string) (id : string) : nat :=
  sum_list (map (fun commitHash =>
                   match searchIAMKeysInRepo pats repoPath (tree_of w commitHash) with
                   | Ok found => files_holding found id
                   | Err _ => 0
                   end)
                commitHashes).

(** The lines a trace prints, in order. *)
Definition printed (trace : list Event) : list string :=
  flat_map (fun e => match e with
                     | EvPrint line => [line]
                     | _ => []
                     end) trace.

Definition any_line (lines : list string) : bool :=
  match lines with
  | [] => false
  | _ :: _ => true
  end.

(** * Concrete worlds *)

Module Examples.

Definition scenario : string :=
  "AWS_ACCESS_KEY_ID=AKIA1234567890ABCD12" +:+ LF +:+
  "AWS_SECRET_ACCESS_KEY=abcDEF1234567890+/==".

(** One identifier followed by two secrets. *)
Definition two_secrets : string :=
  "AWS_ACCESS_KEY_ID=AKIA1234567890ABCD12" +:+ LF +:+
  "AWS_SECRET_ACCESS_KEY=firstSecret" +:+ LF +:+
  "AWS_SECRET_ACCESS_KEY=secondSecret".

Definition ok : cmd_result := {| cmd_output := ""; cmd_err := None |}.
Definition failed (output : string) : cmd_result :=
  {| cmd_output := output; cmd_err := Some "exit status 1" |}.

(** The order stdpp lists a map in, as one possible range order. *)
Definition in_map_order : range_fn := fun A m => map_to_list m.

(** A world where every external call succeeds and the authority knows
    no key; [log] is the output of git log, [tree] gives the files of
    each commit. *)
Definition world (log : string) (checkout : string -> cmd_result)
    (tree : string -> node) : World :=
  {| temp_dir := Ok "/tmp/repo-clone-1";
     git_clone := fun _ _ => ok;
     chdir := fun _ => None;
     git_log := {| cmd_output := log; cmd_err := None |};
     git_checkout := checkout;
     tree_of := tree;
     cloned_tree := Dir "repo-clone-1" (Ok []);
     new_session := None;
     GetCallerIdentity := fun _ _ =>
       Some (AwsErr "InvalidClientTokenId"
               "The security token included in the request is invalid.");
     GetAccessKeyLastUsed := fun _ =>
       (None, Some (AwsErr "NoSuchEntity" "The Access Key cannot be found."));
     elapsed := "1.23s" |}.

Definition url : string := "https://example.org/repo.git".

(** Two commits, the same key file in both. *)
Definition two_commits : World :=
  world ("c1" +:+ LF +:+ "c2") (fun _ => ok)
        (fun commit => Dir "repo-clone-1" (Ok [File "config.env" (Ok scenario)])).

(** One commit whose tree holds an unreadable file before the key file. *)
Definition unreadable_first : World :=
  world "c1" (fun _ => ok)
        (fun commit => Dir "repo-clone-1"
                         (Ok [File "a.txt" (Err "open a.txt: permission denied");
                              File "config.env" (Ok scenario)])).

(** One commit whose tree holds, in a sub-directory, an unreadable file
    before the key file, and one more file after the sub-directory. *)
Definition unreadable_in_subdirectory : World :=
  world "c1" (fun _ => ok)
        (fun commit =>
           Dir "repo-clone-1"
             (Ok [Dir "sub" (Ok [File "bad.txt" (Err "open bad.txt: permission denied");
                                 File "config.env" (Ok scenario)]);
                  File "z.env" (Ok scenario)])).

(** Two commits; the checkout of the first one fails. *)
Definition first_checkout_fails : World :=
  world ("c1" +:+ LF +:+ "c2")
        (fun commit => if String.eqb commit "c1"
                       then failed "fatal: unable to read tree"
                       else ok)
        (fun commit => Dir "repo-clone-1" (Ok [File "config.env" (Ok scenario)])).

(** An enumeration that succeeds and prints nothing, and a git that
    refuses to check out the empty string. *)
Definition no_commits : World :=
  world ""
        (fun commit => if String.eqb commit ""
                       then failed "fatal: empty string is not a valid pathspec"
                       else ok)
        (fun commit => Dir "repo-clone-1" (Ok [])).

(** Two commits with different files. *)
Definition two_distinct_commits : World :=
  world ("c1" +:+ LF +:+ "c2") (fun _ => ok)
        (fun commit => Dir "repo-clone-1" (Ok [File (commit +:+ ".env") (Ok scenario)])).

(** One commit holding the scenario file, and an authority that answers
    every call as given. *)
Definition authority (sts : option sdk_error)
    (iam : last_used_output * option sdk_error) : World :=
  {| temp_dir := Ok "/tmp/repo-clone-1";
     git_clone := fun _ _ => ok;
     chdir := fun _ => None;
     git_log := {| cmd_output := "c1"; cmd_err := None |};
     git_checkout := fun _ => ok;
     tree_of := fun _ => Dir "repo-clone-1" (Ok [File "config.env" (Ok scenario)]);
     cloned_tree := Dir "repo-clone-1" (Ok []);
     new_session := None;
     GetCallerIdentity := fun _ _ => sts;
     GetAccessKeyLastUsed := fun _ => iam;
     elapsed := "1.23s" |}.

Definition timeout : sdk_error :=
  AwsErr "RequestError" "send request failed: context deadline exceeded".

(** The authority cannot be reached in time. *)
Definition authority_times_out : World :=
  authority (Some timeout) (None, Some timeout).

(** The authority answers that it knows no such identifier. *)
Definition authority_knows_no_key : World :=
  authority (Some (AwsErr "InvalidClientTokenId"
                     "The security token included in the request is invalid."))
            (None, Some (AwsErr "NoSuchEntity" "The Access Key cannot be found.")).

(** A repository without a commit: there git log fails. *)
Definition unborn_head : World :=
  {| temp_dir := Ok "/tmp/repo-clone-1";
     git_clone := fun _ _ => ok;
     chdir := fun _ => None;
     git_log := {| cmd_output :=
                     "fatal: your current branch 'master' does not have any commits yet";
                   cmd_err := Some "exit status 128" |};
     git_checkout := fun _ => ok;
     tree_of := fun _ => Dir "repo-clone-1" (Ok []);
     cloned_tree := Dir "repo-clone-1" (Ok []);
     new_session := None;
     GetCallerIdentity := fun _ _ => None;
     GetAccessKeyLastUsed := fun _ => (None, None);
     elapsed := "0.01s" |}.

End Examples.


(** * Further notions *)

(** ** Bytes of a text *)

Definition LF_byte : ascii := ascii_of_nat 10.

Fixpoint has_byte (b : ascii) (s : string) : bool :=
  match s with
  | EmptyString => false
  | String a t => Ascii.eqb a b || has_byte b t
  end.

Fixpoint count_byte (b : ascii) (s : string) : nat :=
  match s with
  | EmptyString => 0
  | String a t => (if Ascii.eqb a b then 1 else 0) + count_byte b t
  end.

(** Every byte of [s] satisfies [p]. *)
Fixpoint all_bytes (p : ascii -> bool) (s : string) : bool :=
  match s with
  | EmptyString => true
  | String a t => p a && all_bytes p t
  end.

(** ** The files of a tree *)

(** Whether Walk can go through the whole of [n]: every node can be
    stat'ed, every directory listed and every file read. *)
Fixpoint readable (n : node) : bool :=
  match n with
  | File _ (Ok _) => true
  | File _ (Err _) => false
  | Dir _ (Ok names) => forallb readable names
  | Dir _ (Err _) => false
  | NoStat _ _ => false
  end.

(** The non-directory nodes Walk can come to under [path], in the order it
    visits them, each with what reading it gives. *)
Fixpoint files_of (path : string) (n : node) : list (string * result string) :=
  match n with
  | File _ data => [(path, data)]
  | Dir _ (Ok names) =>
      flat_map (fun child => files_of (Join path (node_name child)) child) names
  | Dir _ (Err _) => []
  | NoStat _ _ => []
  end.

(** What the Walk callback does to the map for one file that can be read. *)
Definition record_file (pats : patterns) (found : gmap string (gmap string string))
    (file : string * result string) : gmap string (gmap string string) :=
  match file.2 with
  | Ok content =>
      if Nat.ltb 0 (size (extract pats content))
      then <[file.1 := extract pats content]> found
      else found
  | Err _ => found
  end.

(** The outcome of the walk of [n] from state [st]: on a readable tree
    it reads every file and records those that hold keys; otherwise it
    ends with an error, having read the files up to the failure. *)
Definition walk_outcome (pats : patterns) (path : string) (files : list (string * result string))
    (ok : bool) (st : scan_state) (r : scan_state * option string) : Prop :=
  if ok
  then r = ({| foundIAMKeys := foldl (record_file pats) (foundIAMKeys st) files;
               reads := reads st ++ files.*1 |}, None)
  else exists st' e l,
         r = (st', Some e) /\ reads st' = reads st ++ l /\ l `prefix_of` files.*1.

(** ** What the patterns denote *)

(** One rune of a class, as the bytes it takes. *)
Inductive cls_rune (c : charclass) : string -> Prop :=
| rune_byte a : cc_byte c a = true -> cls_rune c (String a "")
| rune_long_s : cc_folded c = true -> cls_rune c long_s
| rune_kelvin : cc_folded c = true -> cls_rune c kelvin.

(** [u] spells the literal [p] in some letter case (with the runes that
    case folding adds). *)
Inductive spelling : string -> string -> Prop :=
| spelling_nil : spelling "" ""
| spelling_cons a p x u :
    In x (fold_orbit a) -> spelling p u -> spelling (String a p) (x +:+ u).

(** The texts a pattern matches. *)
Inductive lang : regex -> string -> Prop :=
| lang_lit p : lang (Lit false p) p
| lang_lit_fold p u : spelling p u -> lang (Lit true p) u
| lang_cls c u : cls_rune c u -> lang (Cls c) u
| lang_opt_none c : lang (Opt c) ""
| lang_opt_some c u : cls_rune c u -> lang (Opt c) u
| lang_plus_one c u : cls_rune c u -> lang (Plus c) u
| lang_plus_more c u v : cls_rune c u -> lang (Plus c) v -> lang (Plus c) (u +:+ v)
| lang_cat r1 r2 u v : lang r1 u -> lang r2 v -> lang (Cat r1 r2) (u +:+ v)
| lang_alt_l r1 r2 u : lang r1 u -> lang (Alt r1 r2) u
| lang_alt_r r1 r2 u : lang r2 u -> lang (Alt r1 r2) u
| lang_cap i r u : lang r u -> lang (Cap i r) u.

(** The numbers of the capturing groups of a pattern. *)
Fixpoint groups (r : regex) : list nat :=
  match r with
  | Lit _ _ | Cls _ | Opt _ | Plus _ => []
  | Cat r1 r2 | Alt r1 r2 => groups r1 ++ groups r2
  | Cap i r => i :: groups r
  end.

(** [value] is assigned in [content]: somewhere [content] holds the
    literal [p] (in any letter case when [fold] is on) followed by
    [value], a run of runes of [c] that cannot be made longer. *)
Definition assigned_in (content : string) (fold : bool) (p : string) (c : charclass)
    (value : string) : Prop :=
  exists before name rest,
    content = before +:+ name +:+ value +:+ rest
    /\ lang (Lit fold p) name
    /\ lang (Plus c) value
    /\ cls_step c rest = None.

(** Whether the bytes of [p] and [q] match the same texts, place by place,
    under case folding. *)
Fixpoint same_orbits (p q : string) : bool :=
  match p, q with
  | EmptyString, EmptyString => true
  | String a p', String b q' =>
      bool_decide (fold_orbit a = fold_orbit b) && same_orbits p' q'
  | _, _ => false
  end.

(** ** Reading runs *)

(** The checkouts of a trace, in order: index and commit. *)
Definition checkouts (trace : list Event) : list (nat * string) :=
  flat_map (fun e => match e with
                     | EvCheckout i commitHash => [(i, commitHash)]
                     | _ => []
                     end) trace.

(** A commit the loop of [main] gets through: its checkout succeeds and
    its tree can be walked in full. *)
Definition commit_scans (w : World) (repoPath commitHash : string) : Prop :=
  checkoutCommit w repoPath commitHash = None
  /\ readable (tree_of w commitHash) = true.

(** ** Reading the goroutine machine *)

(** The per-commit goroutines of the commits [rest], numbered from [i],
    as [main] starts them. *)
Fixpoint spawned (i : nat) (rest : list string) : list Part000.commit_goroutine :=
  match rest with
  | [] => []
  | commitHash :: rest' =>
      {| Part000.cg_index := i; Part000.cg_commit := commitHash;
         Part000.cg_pc := Part000.AtCheckout |} :: spawned (S i) rest'
  end.

(** A state of the machine in which no goroutine has moved yet. *)
Definition main_only (pc : Part000.main_pc) (goroutines : list Part000.commit_goroutine)
    (wt : worktree) (trace : list Event) : Part000.state :=
  {| Part000.st_main := pc;
     Part000.st_commits := goroutines;
     Part000.st_keys := [];
     Part000.st_wt := wt;
     Part000.st_errChan := None;
     Part000.st_validKeysFound := false;
     Part000.st_trace := trace |}.

(** What holds of the per-commit goroutines in every state of a run over
    [commitHashes]: the goroutine at place n is that of the n-th commit;
    a checkout in the trace is that of a goroutine that is past its
    checkout; no index is checked out twice; and while [main] starts the
    goroutines, those started are those of the commits gone through. *)
Definition goroutines_inv (commitHashes : list string) (s : Part000.state) : Prop :=
  (forall n g,
      Part000.st_commits s !! n = Some g ->
      Part000.cg_index g = n /\ commitHashes !! n = Some (Part000.cg_commit g))
  /\ (forall i commitHash,
        In (i, commitHash) (checkouts (Part000.st_trace s)) ->
        exists g,
          Part000.st_commits s !! i = Some g
          /\ Part000.cg_commit g = commitHash
          /\ Part000.cg_pc g <> Part000.AtCheckout)
  /\ NoDup (checkouts (Part000.st_trace s)).*1
  /\ (forall i rest,
        Part000.st_main s = Part000.Spawning i rest ->
        length (Part000.st_commits s) = i /\ drop i commitHashes = rest).

(** * Properties *)

(** Closed facts are settled by evaluation. *)
Ltac evaluate :=
  repeat match goal with |- _ /\ _ => split end; vm_compute; reflexivity.


(** ** The matcher *)

Lemma strip_prefix_length p s t :
  strip_prefix p s = Some t -> String.length s = String.length p + String.length t.
Proof.
  revert s. induction p as [|a p IH]; intros s.
  - destruct s; cbn; by intros [= <-].
  - destruct s as [|b s]; cbn; [done|].
    destruct (Ascii.eqb a b); [|done]. intros H. apply IH in H. lia.
Qed.

(** A rune of a class takes at least one byte. *)
Lemma cls_step_shorter c s t :
  cls_step c s = Some t -> String.length t < String.length s.
Proof.
  destruct s as [|a s]; [done|]. cbn [cls_step].
  destruct (cc_byte c a); [intros [= <-]; cbn; lia|].
  destruct (cc_folded c); [|done]. cbn [first_strip].
  destruct (strip_prefix long_s _) eqn:H1.
  - intros [= <-]. apply strip_prefix_length in H1. cbn in *. lia.
  - destruct (strip_prefix kelvin _) eqn:H2; [|done].
    intros [= <-]. apply strip_prefix_length in H2. cbn in *. lia.
Qed.

(** The fuel [rmatch] gives to [plus_loop] is enough: more changes nothing. *)
Lemma plus_loop_fuel {R : Type} c (k : string -> option R) n m s :
  String.length s <= n -> String.length s <= m ->
  plus_loop n c s k = plus_loop m c s k.
Proof.
  revert m s. induction n as [|n IH]; intros [|m] s Hn Hm; cbn [plus_loop]; try done.
  - destruct s; [done|]. cbn in Hn. lia.
  - destruct s; [done|]. cbn in Hm. lia.
  - destruct (cls_step c s) as [t|] eqn:Hstep; [|done].
    apply cls_step_shorter in Hstep. by rewrite (IH m t) by lia.
Qed.

(** The patterns at work on small inputs: letter case, the quotes, and
    the runes that case folding adds. *)
Example secret_pattern_folds_case :
  FindAllStringSubmatch Main.secretAccessKeyPattern "aws_secret_access_key=s3cr3t rest"
  = [["aws_secret_access_key=s3cr3t"; "s3cr3t"]].
Proof. vm_compute. reflexivity. Qed.

Example identifier_pattern_keeps_case :
  FindAllStringSubmatch Main.accessKeyIDPattern "aws_access_key_id=AKIA1" = []
  /\ FindAllStringSubmatch Main.accessKeyIDPattern "AWS_ACCESS_KEY_ID=AKIA1abc"
     = [["AWS_ACCESS_KEY_ID=AKIA1"; "AKIA1"]].
Proof. evaluate. Qed.

Example secret_pattern_folds_kelvin :
  FindAllStringSubmatch Main.secretAccessKeyPattern
    ("AWS_SECRET_ACCESS_" +:+ kelvin +:+ "EY=x")
  = [["AWS_SECRET_ACCESS_" +:+ kelvin +:+ "EY=x"; "x"]].
Proof. vm_compute. reflexivity. Qed.

Example part000_pattern_groups :
  FindAllStringSubmatch Part000.accessKeyIDPattern "aws_access_key_id:'AKIA/1+2' x"
  = [["aws_access_key_id:'AKIA/1+2'"; "aws_access_key_id"; "AKIA/1+2"]].
Proof. vm_compute. reflexivity. Qed.

Example successive_matches :
  FindAllStringSubmatch Main.accessKeyIDPattern
    "AWS_ACCESS_KEY_ID=A1,AWS_ACCESS_KEY_ID=,AWS_ACCESS_KEY_ID=B2"
  = [["AWS_ACCESS_KEY_ID=A1"; "A1"]; ["AWS_ACCESS_KEY_ID=B2"; "B2"]].
Proof. vm_compute. reflexivity. Qed.

(** ** The extractor *)

Section Extractor.
Implicit Types (iamKeys : gmap string string) (c : string * string).

Lemma assign_all_app cs1 cs2 (m : gmap string string) :
  assign_all (cs1 ++ cs2) m = assign_all cs2 (assign_all cs1 m).
Proof. unfold assign_all. by rewrite foldl_app. Qed.

Lemma pair_secrets_assign accessKeyID secs (m : gmap string string) :
  pair_secrets accessKeyID secs m
  = assign_all (candidates [[""; accessKeyID]] secs) m.
Proof.
  unfold pair_secrets, candidates, assign_all. simpl. rewrite app_nil_r.
  revert m. induction secs as [|sec secs IH]; intros m; simpl; [done|].
  destruct (negb (idx sec 0 =? "")%string); simpl; apply IH.
Qed.

Lemma candidates_cons match_ ids secs :
  candidates (match_ :: ids) secs
  = candidates [[""; idx match_ 1]] secs ++ candidates ids secs.
Proof. unfold candidates. simpl. by rewrite app_nil_r. Qed.

(** The map built by the two loops is the candidates assigned in order. *)
Lemma combine_keys_assign ids secs :
  combine_keys ids secs = assign_all (candidates ids secs) ∅.
Proof.
  unfold combine_keys. generalize (∅ : gmap string string).
  induction ids as [|match_ ids IH]; intros m; [done|].
  rewrite candidates_cons, assign_all_app, <- pair_secrets_assign.
  cbn [foldl]. apply IH.
Qed.

(** After assigning in order, a key holds the value of its last pair. *)
Lemma assign_all_lookup cs (m : gmap string string) k :
  assign_all cs m !! k
  = match last (filter (fun c => c.1 = k) cs) with
    | Some c => Some c.2
    | None => m !! k
    end.
Proof.
  revert m. induction cs as [|c cs IH]; intros m; [done|].
  unfold assign_all in *. cbn [foldl]. rewrite IH, filter_cons.
  destruct (decide (c.1 = k)) as [<-|Hne].
  - rewrite last_cons. destruct (last _); [done|]. by rewrite lookup_insert_eq.
  - destruct (last _); [done|]. by rewrite lookup_insert_ne.
Qed.

(** One round of the inner loop changes at most the entry of its identifier. *)
Lemma pair_secrets_cases accessKeyID secs (m : gmap string string) :
  pair_secrets accessKeyID secs m = m
  \/ exists v, pair_secrets accessKeyID secs m = <[accessKeyID := v]> m.
Proof.
  unfold pair_secrets. revert m.
  induction secs as [|sec secs IH]; intros m; cbn [foldl]; [by left|].
  destruct (negb (idx sec 0 =? "")%string).
  - right. destruct (IH (<[accessKeyID := idx sec 1]> m)) as [->|[v ->]].
    + eauto.
    + exists v. apply insert_insert_eq.
  - apply IH.
Qed.

Lemma pair_secrets_size accessKeyID secs (m : gmap string string) :
  size (pair_secrets accessKeyID secs m) <= S (size m).
Proof.
  destruct (pair_secrets_cases accessKeyID secs m) as [->|[v ->]]; [lia|].
  destruct (m !! accessKeyID) eqn:Hm.
  - rewrite map_size_insert_Some by eauto. lia.
  - rewrite map_size_insert_None by done. lia.
Qed.

Lemma combine_keys_size ids secs :
  size (combine_keys ids secs) <= length ids.
Proof.
  unfold combine_keys.
  assert (forall m, size (foldl (fun iamKeys match_ =>
              pair_secrets (idx match_ 1) secs iamKeys) m ids)
            <= size m + length ids) as H.
  { induction ids as [|match_ ids IH]; intros m; cbn [foldl length]; [lia|].
    etransitivity; [apply IH|].
    pose proof (pair_secrets_size (idx match_ 1) secs m). lia. }
  specialize (H ∅). by rewrite map_size_empty in H.
Qed.

Lemma match_at_whole re s (m : list string) len :
  match_at re s = Some (m, len) -> idx m 0 = take_bytes len s.
Proof.
  unfold match_at. destruct (rmatch _ _ _ _) as [[t cs]|]; [|done].
  intros [= <- <-]. done.
Qed.

(** A match recorded by [find_all] is never the empty text. *)
Lemma find_all_whole re s skip (m : list string) :
  In m (find_all re s skip) -> idx m 0 <> "".
Proof.
  revert skip. induction s as [|a t IH]; intros skip; cbn [find_all]; [done|].
  destruct skip as [|skip']; [|apply IH].
  destruct (match_at re (String a t)) as [[m' [|len']]|] eqn:Hm; [apply IH| |apply IH].
  intros [<-|Hin]; [|by eapply IH].
  rewrite (match_at_whole _ _ _ _ Hm). done.
Qed.

(** So the guard [secretMatch[0] != ""] never drops a match of the scan. *)
Lemma candidates_find_all ids re s :
  candidates ids (FindAllStringSubmatch re s)
  = flat_map (fun match_ =>
                map (fun secretMatch => (idx match_ 1, idx secretMatch 1))
                    (FindAllStringSubmatch re s)) ids.
Proof.
  unfold candidates, FindAllStringSubmatch.
  assert (forall (secs : list (list string)) (x : string),
            (forall m, In m secs -> idx m 0 <> "") ->
            flat_map (fun secretMatch =>
                        if negb (idx secretMatch 0 =? "")%string
                        then [(x, idx secretMatch 1)] else []) secs
            = map (fun secretMatch => (x, idx secretMatch 1)) secs) as H.
  { induction secs as [|sec secs IH]; intros x Hne; [done|]. cbn [flat_map map].
    destruct (String.eqb_spec (idx sec 0) "") as [He|_].
    - exfalso. eapply Hne; [by left|done].
    - cbn [negb app]. f_equal. apply IH. intros m Hm. apply Hne. by right. }
  induction ids as [|match_ ids IH]; [done|]. cbn [flat_map].
  rewrite IH, H; [done|]. intros m Hm. by eapply find_all_whole.
Qed.

Lemma last_filter_pairs (ids vals : list string) (k : string) :
  last (filter (fun c : string * string => c.1 = k)
          (flat_map (fun i => map (fun v => (i, v)) vals) ids))
  = if decide (k ∈ ids) then (fun v => (k, v)) <$> last vals else None.
Proof.
  induction ids as [|i ids IH]; [done|].
  cbn [flat_map]. rewrite filter_app, last_app, IH.
  destruct (decide (k ∈ ids)) as [Hin|Hnin].
  - rewrite decide_True by (by right).
    destruct (last vals) as [v|] eqn:Hlast; [done|].
    apply last_None in Hlast as ->. done.
  - destruct (decide (i = k)) as [->|Hne].
    + rewrite decide_True by (by left). cbn [fmap option_fmap option_map].
      replace (filter _ _) with ((fun v => (k, v)) <$> vals); [apply fmap_last|].
      clear. induction vals as [|v vals IH]; [done|].
      cbn [fmap list_fmap map]. rewrite filter_cons_True by done. f_equal. apply IH.
    + rewrite decide_False by (intros [->|?]%elem_of_cons; done).
      cbn [fmap option_fmap option_map].
      replace (filter _ _) with (@nil (string * string)); [done|].
      clear -Hne. induction vals as [|v vals IH]; [done|].
      cbn [map]. by rewrite filter_cons_False.
Qed.

(** What [searchIAMKeysInFile] records for an identifier: the first
    group of the last secret match, if the identifier was matched. *)
Lemma extract_lookup pats content id :
  extract pats content !! id
  = if decide (id ∈ map (fun m => idx m 1)
                      (FindAllStringSubmatch (pat_accessKeyID pats) content))
    then (fun m => idx m 1) <$>
           last (FindAllStringSubmatch (pat_secretAccessKey pats) content)
    else None.
Proof.
  unfold extract. rewrite combine_keys_assign, assign_all_lookup, candidates_find_all.
  set (ids := FindAllStringSubmatch (pat_accessKeyID pats) content).
  set (secs := FindAllStringSubmatch (pat_secretAccessKey pats) content).
  replace (flat_map _ ids)
    with (flat_map (fun i => map (fun v => (i, v)) (map (fun m => idx m 1) secs))
                   (map (fun m => idx m 1) ids)).
  - rewrite last_filter_pairs. case_decide; [|done].
    change (map (fun m => idx m 1) secs) with ((fun m => idx m 1) <$> secs).
    rewrite fmap_last. by destruct (last secs).
  - clear. induction ids as [|i ids IH]; [done|].
    cbn [map flat_map]. rewrite IH. f_equal. by rewrite map_map.
Qed.
End Extractor.

(** C6 (the scenario of the specification).  On the two-line file of the
    scenario, [searchIAMKeysInFile] of src/main.go returns exactly one
    candidate, whose identifier is the value after the equals sign; the
    one of src/unnamed/part_000 also returns exactly one candidate, but
    its identifier is the variable name and its secret the name of the
    secret variable: there [match[1]] is the first group of a pattern
    whose value is the second group. *)
Theorem scenario_candidate :
  extract Main.pats Examples.scenario
    = {[ "AKIA1234567890ABCD12" := "abcDEF1234567890+/==" ]}
  /\ extract Part000.pats Examples.scenario
    = {[ "AWS_ACCESS_KEY_ID" := "AWS_SECRET_ACCESS_KEY" ]}.
Proof. evaluate. Qed.

(** C7, as the specification has it, fails: of two candidates with one
    identifier and different secrets, the first-seen secret is not the one
    retained. *)
Lemma first_secret_not_retained :
  candidates_of Main.pats Examples.two_secrets
    = [("AKIA1234567890ABCD12", "firstSecret");
       ("AKIA1234567890ABCD12", "secondSecret")]
  /\ extract Main.pats Examples.two_secrets !! "AKIA1234567890ABCD12"
     <> Some "firstSecret".
Proof. split; [vm_compute; reflexivity|]. vm_compute. discriminate. Qed.

(** C7, amended.  For every file content whose candidates, in the order
    the extractor meets them, hold two candidates with the same
    identifier, the secret recorded for the identifier is that of the
    later one when no further candidate with that identifier follows:
    each later candidate overwrites the secret recorded so far. *)
Theorem last_secret_retained pats content id s1 s2 pre mid post :
  candidates_of pats content = pre ++ (id, s1) :: mid ++ (id, s2) :: post ->
  id ∉ post.*1 ->
  extract pats content !! id = Some s2.
Proof.
  intros Hc Hpost. unfold extract. rewrite combine_keys_assign.
  fold (candidates_of pats content). rewrite Hc, assign_all_lookup.
  replace (pre ++ (id, s1) :: mid ++ (id, s2) :: post)
    with ((pre ++ (id, s1) :: mid) ++ (id, s2) :: post)
    by (by rewrite <- !app_assoc).
  generalize (pre ++ (id, s1) :: mid). intros earlier.
  rewrite filter_app, filter_cons_True by done.
  replace (filter _ post) with (@nil (string * string)).
  - by rewrite last_snoc.
  - symmetry. clear -Hpost. induction post as [|c post IH]; [done|].
    rewrite filter_cons_False.
    + apply IH. intros ?. apply Hpost. by right.
    + intros Heq. apply Hpost. rewrite <- Heq. by left.
Qed.

Lemma last_secret_retained_witness :
  extract Main.pats Examples.two_secrets !! "AKIA1234567890ABCD12"
  = Some "secondSecret".
Proof.
  apply (last_secret_retained Main.pats Examples.two_secrets
           "AKIA1234567890ABCD12" "firstSecret" "secondSecret" [] [] []).
  - vm_compute. reflexivity.
  - apply not_elem_of_nil.
Defined.

(** C8, as the specification has it, fails: with one identifier match and
    two secret matches the extractor yields one pair, not both, so not
    every identifier match is paired with every secret match. *)
Lemma not_every_pair_yielded :
  length (FindAllStringSubmatch Main.accessKeyIDPattern Examples.two_secrets) = 1
  /\ length (FindAllStringSubmatch Main.secretAccessKeyPattern Examples.two_secrets) = 2
  /\ size (extract Main.pats Examples.two_secrets) = 1
  /\ ~ (forall id secret,
          In (id, secret) (candidates_of Main.pats Examples.two_secrets) ->
          extract Main.pats Examples.two_secrets !! id = Some secret).
Proof.
  split; [vm_compute; reflexivity|]. split; [vm_compute; reflexivity|].
  split; [vm_compute; reflexivity|].
  intros H. specialize (H "AKIA1234567890ABCD12" "firstSecret").
  assert (In ("AKIA1234567890ABCD12", "firstSecret")
             (candidates_of Main.pats Examples.two_secrets)) as Hin
    by (vm_compute; by left).
  apply H in Hin. vm_compute in Hin. discriminate.
Qed.

(** C8, amended.  For every file content with N identifier matches and M
    secret matches, the extractor returns a map from identifiers to
    secrets with at most N entries: none when M = 0, and otherwise exactly
    one per distinct identifier matched, each paired with the last secret
    match of the content (never more than one pair per identifier). *)
Theorem one_pair_per_identifier pats content :
  let accessKeyIDs := FindAllStringSubmatch (pat_accessKeyID pats) content in
  let secretAccessKeys := FindAllStringSubmatch (pat_secretAccessKey pats) content in
  size (extract pats content) <= length accessKeyIDs
  /\ (length secretAccessKeys = 0 -> extract pats content = ∅)
  /\ (forall id,
        extract pats content !! id
        = if decide (id ∈ map (fun m => idx m 1) accessKeyIDs)
          then (fun m => idx m 1) <$> last secretAccessKeys
          else None).
Proof.
  intros ids secs. split; [apply combine_keys_size|]. split.
  - intros Hlen. apply map_eq. intros id. rewrite extract_lookup, lookup_empty.
    fold secs. destruct secs; [|done]. by case_decide.
  - apply extract_lookup.
Qed.

Lemma one_pair_per_identifier_witness :
  size (extract Main.pats Examples.two_secrets) <= 1
  /\ extract Main.pats Examples.two_secrets !! "AKIA1234567890ABCD12"
     = Some "secondSecret".
Proof.
  destruct (one_pair_per_identifier Main.pats Examples.two_secrets)
    as (Hsize & _ & Hlookup).
  split; [exact Hsize|]. rewrite Hlookup. vm_compute. reflexivity.
Defined.

(** ** The walk of the working tree *)

Section WalkFacts.
Context {S : Type}.
Implicit Types (visit : string -> node -> S -> S * option string) (st : S).

Lemma walk_names_app visit path names1 names2 st :
  walk_names visit path (names1 ++ names2) st
  = match walk_names visit path names1 st with
    | (st', None) => walk_names visit path names2 st'
    | (st', Some e) => (st', Some e)
    end.
Proof.
  revert st. induction names1 as [|c names1 IH]; intros st; [done|].
  cbn [app walk_names]. destruct (visit _ c st) as [st' [e|]]; [done|]. apply IH.
Qed.

(** The loop over a directory fails as soon as it holds an entry whose
    visit always fails. *)
Lemma walk_names_error visit path names st :
  Exists (fun c => forall p st, exists st' e, visit p c st = (st', Some e)) names ->
  exists st' e, walk_names visit path names st = (st', Some e).
Proof.
  intros Hex. revert st. induction Hex as [c names Hc|c names _ IH]; intros st.
  - cbn [walk_names]. destruct (Hc (Join path (node_name c)) st) as (st' & e & ->).
    eauto.
  - cbn [walk_names]. destruct (visit _ c st) as [st' [e|]]; eauto.
Qed.
End WalkFacts.

(** Induction on trees, with the property known for the entries of a
    readable directory. *)
Lemma node_nested_ind (P : node -> Prop) :
  (forall name data, P (File name data)) ->
  (forall name e, P (Dir name (Err e))) ->
  (forall name names, Forall P names -> P (Dir name (Ok names))) ->
  (forall name e, P (NoStat name e)) ->
  forall n, P n.
Proof.
  intros HFile HDirErr HDir HNoStat. fix IH 1.
  intros [name data|name [names|e]|name e]; [apply HFile| |apply HDirErr|apply HNoStat].
  apply HDir.
  exact ((fix all (names : list node) : Forall P names :=
            match names with
            | [] => @List.Forall_nil _ P
            | c :: names' => @List.Forall_cons _ P c names' (IH c) (all names')
            end) names).
Qed.

(** A file that cannot be read ends the walk with an error, wherever it
    lies in the tree. *)
Lemma walk_unreadable pats n :
  unreadable_file n = true ->
  forall path st, exists st' e, walk (scan_file pats) path n st = (st', Some e).
Proof.
  induction n as [name data| |name names IH|] using node_nested_ind;
    cbn [unreadable_file]; try done.
  - destruct data as [content|e]; [done|]. intros _ path st.
    cbn [walk scan_file IsDir ReadFile searchIAMKeysInFile]. eauto.
  - intros Hex path st. cbn [walk scan_file IsDir].
    apply walk_names_error. apply existsb_exists in Hex as (c & Hin & Hc).
    apply Exists_exists. exists c. split; [by apply list_elem_of_In|].
    rewrite Forall_forall in IH. intros p st0. apply IH; [by apply list_elem_of_In|done].
Qed.

Lemma search_unreadable pats repoPath tree :
  unreadable_file tree = true ->
  exists e, searchIAMKeysInRepo pats repoPath tree = Err e.
Proof.
  intros H. unfold searchIAMKeysInRepo, scan_tree, Walk.
  destruct (walk_unreadable pats tree H repoPath
              {| foundIAMKeys := ∅; reads := [] |}) as (st' & e & ->).
  eauto.
Qed.

(** Nothing that follows an unreadable file in its directory is read. *)
Lemma files_read_stop pats repoPath dirname before name e after :
  files_read pats repoPath (Dir dirname (Ok (before ++ File name (Err e) :: after)))
  = files_read pats repoPath (Dir dirname (Ok (before ++ [File name (Err e)]))).
Proof.
  unfold files_read, scan_tree, Walk. cbn [walk scan_file IsDir].
  rewrite !walk_names_app.
  destruct (walk_names _ repoPath before _) as [st' [e'|]]; [done|].
  cbn [walk_names walk scan_file IsDir ReadFile searchIAMKeysInFile]. done.
Qed.

(** *** The walk, node by node *)

Lemma file_paths_app l1 l2 : file_paths (l1 ++ l2) = file_paths l1 ++ file_paths l2.
Proof. apply flat_map_app. Qed.

Lemma file_paths_prefix l1 l2 :
  l1 `prefix_of` l2 -> file_paths l1 `prefix_of` file_paths l2.
Proof. intros [k ->]. exists (file_paths k). apply file_paths_app. Qed.

Lemma no_failure_app l1 l2 : no_failure (l1 ++ l2) = no_failure l1 && no_failure l2.
Proof. apply forallb_app. Qed.

Lemma up_to_failure_app l1 l2 :
  up_to_failure (l1 ++ l2)
  = if no_failure l1 then up_to_failure l1 ++ up_to_failure l2 else up_to_failure l1.
Proof.
  induction l1 as [|x l1 IH]; [done|]. cbn [app up_to_failure no_failure forallb].
  fold (no_failure l1). destruct (fails_at x.2); [done|]. cbn [negb andb].
  rewrite IH. by destruct (no_failure l1).
Qed.

Lemma up_to_failure_id l : no_failure l = true -> up_to_failure l = l.
Proof.
  induction l as [|x l IH]; [done|]. cbn [up_to_failure no_failure forallb].
  fold (no_failure l). destruct (fails_at x.2); [done|]. intros H. by rewrite IH.
Qed.

Lemma up_to_failure_prefix l : up_to_failure l `prefix_of` l.
Proof.
  induction l as [|x l IH]; [done|]. cbn [up_to_failure].
  destruct (fails_at x.2); [by exists l|]. by apply prefix_cons.
Qed.

(** The walk stops at an earlier failure or at [bad]: never later. *)
Lemma up_to_failure_stop before bad after :
  fails_at bad.2 = true ->
  up_to_failure (before ++ bad :: after) `prefix_of` before ++ [bad]
  /\ (no_failure before = true ->
      up_to_failure (before ++ bad :: after) = before ++ [bad]).
Proof.
  intros Hbad. rewrite up_to_failure_app. cbn [up_to_failure]. rewrite Hbad.
  destruct (no_failure before) eqn:Hno.
  - by rewrite up_to_failure_id.
  - split; [|done]. apply prefix_app_r, up_to_failure_prefix.
Qed.

Lemma walk_names_reads pats path names :
  Forall (fun n => forall path st,
            reads_up_to_failure (nodes_of path n) st
              (walk (scan_file pats) path n st)) names ->
  forall st,
    reads_up_to_failure
      (flat_map (fun child => nodes_of (Join path (node_name child)) child) names) st
      (walk_names (fun path child st => walk (scan_file pats) path child st)
         path names st).
Proof.
  induction 1 as [|child names Hchild _ IH]; intros st.
  { split; [cbn; by rewrite app_nil_r|done]. }
  cbn [flat_map walk_names].
  destruct (Hchild (Join path (node_name child)) st) as [Hreads Hnone].
  unfold reads_up_to_failure. rewrite up_to_failure_app, no_failure_app.
  destruct (walk (scan_file pats) _ child st) as [st1 [e|]]; cbn [fst snd] in *.
  - destruct (no_failure (nodes_of _ child)).
    + destruct Hnone as [_ Hnone]. discriminate (Hnone eq_refl).
    + done.
  - destruct Hnone as [Hnone _]. rewrite (Hnone eq_refl).
    destruct (IH st1) as [Hreads' Hnone'].
    rewrite Hreads', Hreads, file_paths_app, app_assoc. done.
Qed.

Lemma walk_reads pats n :
  forall path st,
    reads_up_to_failure (nodes_of path n) st (walk (scan_file pats) path n st).
Proof.
  induction n as [name data|name e|name names IH|name e] using node_nested_ind;
    intros path st.
  - cbn [walk scan_file IsDir ReadFile nodes_of]. unfold searchIAMKeysInFile.
    destruct data as [content|e]; [|done].
    by destruct (Nat.ltb 0 (size (extract pats content))).
  - split; [cbn; by rewrite app_nil_r|done].
  - cbn [walk scan_file IsDir nodes_of].
    destruct (walk_names_reads pats path names IH st) as [Hreads Hnone].
    split; [exact Hreads|exact Hnone].
  - split; [cbn; by rewrite app_nil_r|done].
Qed.

(** The files a scan reads are the files among the nodes of the tree, in
    the order of the walk, up to the first node at which it fails. *)
Lemma scan_tree_reads pats repoPath tree :
  files_read pats repoPath tree = file_paths (up_to_failure (nodes_of repoPath tree)).
Proof.
  unfold files_read, scan_tree, Walk.
  by destruct (walk_reads pats tree repoPath {| foundIAMKeys := ∅; reads := [] |})
    as [-> _].
Qed.

(** A tree with an unreadable file has it among its nodes. *)
Lemma unreadable_file_node n :
  unreadable_file n = true ->
  forall path, exists before path' name e after,
    nodes_of path n = before ++ (path', File name (Err e)) :: after.
Proof.
  induction n as [name data| |name names IH|] using node_nested_ind;
    cbn [unreadable_file]; try done.
  - destruct data as [content|e]; [done|]. intros _ path.
    by exists [], path, name, e, [].
  - intros (c & Hin & Hc)%existsb_exists path.
    apply in_split in Hin as (l1 & l2 & ->).
    apply Forall_app in IH as [_ [IHc _]%Forall_cons].
    destruct (IHc Hc (Join path (node_name c))) as (b & p & nm & e & a & Hnodes).
    cbn [nodes_of]. rewrite flat_map_app. cbn [flat_map]. rewrite Hnodes.
    set (under := flat_map (fun child => nodes_of (Join path (node_name child)) child)).
    exists ((path, Dir name (Ok (l1 ++ c :: l2))) :: under l1 ++ b), p, nm, e,
      (a ++ under l2).
    cbn [app]. f_equal. by rewrite <- (app_assoc b), <- (app_assoc (under l1)).
Qed.

(** A failed read stops the scan where it is: whatever comes later in
    the walk is not read. *)
Lemma files_read_up_to pats repoPath tree before path name e after :
  nodes_of repoPath tree = before ++ (path, File name (Err e)) :: after ->
  files_read pats repoPath tree `prefix_of` file_paths before ++ [path]
  /\ (no_failure before = true ->
      files_read pats repoPath tree = file_paths before ++ [path]).
Proof.
  intros Hnodes. rewrite scan_tree_reads, Hnodes.
  destruct (up_to_failure_stop before (path, File name (Err e)) after eq_refl)
    as [Hpre Heq].
  split.
  - apply file_paths_prefix in Hpre. by rewrite file_paths_app in Hpre.
  - intros Hno. by rewrite (Heq Hno), file_paths_app.
Qed.

(** ** The loop of src/main.go over the commits *)

Lemma StronglySorted_lookup {A} (R : relation A) (l : list A) n m x y :
  StronglySorted R l -> n < m -> l !! n = Some x -> l !! m = Some y -> R x y.
Proof.
  intros Hs. revert n m. induction Hs as [|a l Hs IH Hall]; intros n m Hlt Hn Hm; [done|].
  destruct m as [|m]; [lia|]. destruct n as [|n].
  - injection Hn as ->. rewrite Forall_forall in Hall. apply Hall.
    eapply list_elem_of_lookup_2. exact Hm.
  - eapply (IH n m); [lia|done..].
Qed.

Lemma reads_follow_checkout_app (t1 t2 : list Event) :
  reads_follow_checkout t1 -> reads_follow_checkout t2 ->
  reads_follow_checkout (t1 ++ t2).
Proof.
  intros H1 H2 m i path seen Hm.
  apply lookup_app_Some in Hm as [Hm|[Hge Hm]].
  - destruct (H1 _ _ _ _ Hm) as (-> & n & h & Hlt & Hn). split; [done|].
    exists n, h. split; [done|]. by apply lookup_app_l_Some.
  - destruct (H2 _ _ _ _ Hm) as (-> & n & h & Hlt & Hn). split; [done|].
    exists (length t1 + n), h. split; [lia|].
    rewrite lookup_app_r by lia. by replace (length t1 + n - length t1) with n by lia.
Qed.

Lemma sorted_app_ranks (t1 t2 : list Event) (mid : nat) :
  StronglySorted in_order t1 -> StronglySorted in_order t2 ->
  ranks_at_most mid t1 -> ranks_at_least mid t2 ->
  StronglySorted in_order (t1 ++ t2).
Proof.
  intros Hs1 Hs2 Hmost Hleast. apply StronglySorted_app_2; [|done..].
  intros e1 e2 Hin1 Hin2 r1 r2 Hr1 Hr2.
  unfold ranks_at_most, ranks_at_least in *. rewrite Forall_forall in Hmost, Hleast.
  specialize (Hmost _ Hin1 _ Hr1). specialize (Hleast _ Hin2 _ Hr2). lia.
Qed.

Lemma sorted_same_rank (t : list Event) (c : nat) :
  ranks_at_least c t -> ranks_at_most c t -> StronglySorted in_order t.
Proof.
  unfold ranks_at_least, ranks_at_most. intros Hleast Hmost.
  induction t as [|e t IH]; [constructor|].
  apply Forall_cons in Hleast as [He1 Hleast]. apply Forall_cons in Hmost as [He2 Hmost].
  constructor; [by apply IH|].
  rewrite Forall_forall in Hleast. apply Forall_forall. intros e' Hin r1 r2 Hr1 Hr2.
  specialize (He2 _ Hr1). specialize (Hleast _ Hin _ Hr2). lia.
Qed.

Lemma reads_ranks i (paths : list string) :
  let t := map (fun path => EvRead i path (Some i)) paths in
  ranks_at_least (3 * i + 1) t /\ ranks_at_most (3 * i + 1) t
  /\ indices_within i (S i) t.
Proof.
  cbn. unfold ranks_at_least, ranks_at_most, indices_within.
  repeat split; apply Forall_forall; intros e [path [-> _]]%list_elem_of_fmap; cbn;
    intros ? [= <-]; lia.
Qed.

Lemma validation_ranks i (vals : list Event) :
  Forall (validation_phase i) vals ->
  ranks_at_least (3 * i + 2) vals /\ ranks_at_most (3 * i + 2) vals
  /\ indices_within i (S i) vals.
Proof.
  intros Hvals. unfold ranks_at_least, ranks_at_most, indices_within.
  repeat split; (eapply Forall_impl; [exact Hvals|]);
    intros [| |j ? ? ?|line] Hph; cbn in Hph |- *; try done; subst; intros ? [= <-]; lia.
Qed.

Lemma ranks_at_least_weaken lo lo' t :
  lo' <= lo -> ranks_at_least lo t -> ranks_at_least lo' t.
Proof.
  intros Hle H. eapply Forall_impl; [exact H|].
  intros e He r Hr. specialize (He r Hr). lia.
Qed.

Lemma ranks_at_most_weaken hi hi' t :
  hi <= hi' -> ranks_at_most hi t -> ranks_at_most hi' t.
Proof.
  intros Hle H. eapply Forall_impl; [exact H|].
  intros e He r Hr. specialize (He r Hr). lia.
Qed.

Lemma indices_within_weaken lo hi lo' hi' t :
  lo' <= lo -> hi <= hi' -> indices_within lo hi t -> indices_within lo' hi' t.
Proof.
  intros Hlo Hhi H. eapply Forall_impl; [exact H|].
  intros e He j Hj. specialize (He j Hj). lia.
Qed.

(** The events of one round of the loop. *)
Lemma round_trace i commitHash (paths : list string) (vals : list Event) :
  Forall (validation_phase i) vals ->
  let t := EvCheckout i commitHash :: map (fun path => EvRead i path (Some i)) paths ++ vals in
  StronglySorted in_order t
  /\ ranks_at_least (3 * i) t /\ ranks_at_most (3 * i + 2) t
  /\ indices_within i (S i) t
  /\ reads_follow_checkout t.
Proof.
  intros Hvals t.
  destruct (reads_ranks i paths) as (Hr1 & Hr2 & Hr3).
  destruct (validation_ranks i vals Hvals) as (Hv1 & Hv2 & Hv3).
  assert (StronglySorted in_order
            (map (fun path => EvRead i path (Some i)) paths ++ vals)) as Hrest.
  { eapply (sorted_app_ranks _ _ (3 * i + 2)); [by eapply sorted_same_rank
      |by eapply sorted_same_rank| |done].
    apply (ranks_at_most_weaken (3 * i + 1)); [lia|done]. }
  assert (ranks_at_least (3 * i) (map (fun path => EvRead i path (Some i)) paths ++ vals))
    as Hleast.
  { apply Forall_app. split.
    - apply (ranks_at_least_weaken (3 * i + 1)); [lia|done].
    - apply (ranks_at_least_weaken (3 * i + 2)); [lia|done]. }
  split; [|split; [|split; [|split]]].
  - constructor; [done|]. unfold ranks_at_least in Hleast.
    eapply Forall_impl; [exact Hleast|]. intros e He r1 r2 [= <-] Hr. by apply He.
  - constructor; [|done]. cbn. intros ? [= <-]. lia.
  - constructor; [cbn; intros ? [= <-]; lia|].
    apply Forall_app. split; [|done]. apply (ranks_at_most_weaken (3 * i + 1)); [lia|done].
  - constructor; [cbn; intros ? [= <-]; lia|]. by apply Forall_app.
  - intros [|m] j path seen Hm; [done|]. cbn in Hm.
    assert (seen = Some j /\ j = i) as [-> ->].
    { apply list_elem_of_lookup_2, elem_of_app in Hm as [Hin|Hin].
      - apply list_elem_of_fmap in Hin as (? & [= -> -> ->] & _). done.
      - rewrite Forall_forall in Hvals. by apply Hvals in Hin. }
    split; [done|]. exists 0, commitHash. split; [lia|done].
Qed.

Section MainFacts.
Variable range_order : range_fn.
Variable w : World.
Variable repoPath : string.

Local Abbreviation scan_commit := (Main.scan_commit range_order w repoPath).
Local Abbreviation scan_commits := (Main.scan_commits range_order w repoPath).

Lemma validate_keys_phase i commitHash keys :
  Forall (validation_phase i) (flat_map (Main.validate_key w i commitHash) keys).
Proof.
  induction keys as [|[[path id] secret] keys IH]; [constructor|].
  cbn [flat_map]. apply Forall_app. split; [|done].
  unfold Main.validate_key. constructor; [done|].
  destruct (Main.validateIAMKey w id secret); repeat constructor.
Qed.

(** The shape of one round: the checkout, the reads of the tree it
    left, then the validations; a round that fails at the checkout has
    neither reads nor validations. *)
Lemma scan_commit_shape i commitHash wt :
  exists paths vals,
    (scan_commit i commitHash wt).1.1
      = EvCheckout i commitHash :: map (fun path => EvRead i path (Some i)) paths ++ vals
    /\ Forall (validation_phase i) vals
    /\ (is_Some (checkoutCommit w repoPath commitHash) -> paths = [] /\ vals = []).
Proof.
  unfold Main.scan_commit.
  destruct (checkoutCommit w repoPath commitHash) as [e|] eqn:Hco.
  - exists [], []. cbn. split; [done|]. split; [constructor|done].
  - cbn [checked_out wt_rev wt_root].
    destruct (searchIAMKeysInRepo _ _ _) as [found|e].
    + eexists _, _. cbn [fst]. split; [reflexivity|].
      split; [apply validate_keys_phase|]. by intros [? [=]].
    + eexists _, []. cbn [fst]. rewrite app_nil_r. split; [reflexivity|].
      split; [constructor|]. by intros [? [=]].
Qed.

(** The loop does not look at the working tree it is handed: each round
    starts by replacing it. *)
Lemma scan_commits_wt commitHashes i wt wt' validKeysFound :
  scan_commits commitHashes i wt validKeysFound
  = scan_commits commitHashes i wt' validKeysFound.
Proof.
  destruct commitHashes as [|h rest]; [done|].
  cbn [Main.scan_commits]. unfold Main.scan_commit.
  destruct (checkoutCommit w repoPath h); [done|].
  by destruct (searchIAMKeysInRepo _ _ _).
Qed.

Lemma scan_commits_app before rest i wt validKeysFound :
  scan_commits (before ++ rest) i wt validKeysFound
  = match scan_commits before i wt validKeysFound with
    | (events, Err msg) => (events, Err msg)
    | (events, Ok valid) =>
        let '(events', r) := scan_commits rest (i + length before) wt valid in
        (events ++ events', r)
    end.
Proof.
  revert i wt validKeysFound.
  induction before as [|h before IH]; intros i wt validKeysFound.
  - cbn [app Main.scan_commits length]. rewrite Nat.add_0_r.
    by destruct (scan_commits rest i wt validKeysFound).
  - cbn [app Main.scan_commits length].
    destruct (scan_commit i h wt) as [[events wt'] [valid|msg]]; [|done].
    rewrite IH.
    destruct (scan_commits before (S i) wt' _) as [events1 [valid1|msg1]]; [|done].
    rewrite (scan_commits_wt rest _ wt' wt).
    replace (S i + length before) with (i + S (length before)) by lia.
    destruct (scan_commits rest _ wt valid1) as [events2 r].
    by rewrite app_assoc.
Qed.

(** The events of the loop started at index [i]: in cycle order, none
    from before [i] or from beyond the list, and every read after its
    own checkout. *)
Lemma scan_commits_trace commitHashes i wt validKeysFound :
  let trace := (scan_commits commitHashes i wt validKeysFound).1 in
  StronglySorted in_order trace
  /\ ranks_at_least (3 * i) trace
  /\ indices_within i (i + length commitHashes) trace
  /\ reads_follow_checkout trace.
Proof.
  revert i wt validKeysFound.
  induction commitHashes as [|h rest IH]; intros i wt validKeysFound.
  { cbn. split; [constructor|]. split; [constructor|]. split; [constructor|]. by intros []. }
  cbn [Main.scan_commits length].
  destruct (scan_commit_shape i h wt) as (paths & vals & Hshape & Hvals & _).
  destruct (round_trace i h paths vals Hvals) as (Hs & Hleast & Hmost & Hidx & Hrd).
  rewrite <- Hshape in Hs, Hleast, Hmost, Hidx, Hrd.
  destruct (scan_commit i h wt) as [[events wt'] [valid|msg]]; cbn [fst] in *.
  - specialize (IH (S i) wt' (validKeysFound || valid)).
    destruct (scan_commits rest (S i) wt' _) as [events' r]. cbn [fst] in *.
    destruct IH as (Hs' & Hleast' & Hidx' & Hrd'). split; [|split; [|split]].
    + eapply (sorted_app_ranks _ _ (3 * i + 2)); [done..|].
      apply (ranks_at_least_weaken (3 * S i)); [lia|done].
    + apply Forall_app. split; [done|].
      apply (ranks_at_least_weaken (3 * S i)); [lia|done].
    + apply Forall_app. split.
      * apply (indices_within_weaken i (S i)); [lia|lia|done].
      * apply (indices_within_weaken (S i) (S i + length rest)); [lia|lia|done].
    + by apply reads_follow_checkout_app.
  - split; [done|]. split; [done|]. split; [|done].
    apply (indices_within_weaken i (S i)); [lia|lia|done].
Qed.
End MainFacts.

(** ** Runs of src/main.go *)

Section MainRuns.
Variable range_order : range_fn.
Variable w : World.

Lemma main_run repoURL repoPath commitHashes :
  String.eqb repoURL "" = false ->
  cloneRepo w repoURL = Ok repoPath ->
  getCommitHashes w repoPath = Ok commitHashes ->
  Main.main range_order w repoURL
  = match Main.scan_commits range_order w repoPath commitHashes 0 (cloned w) false with
    | (events, Err msg) => (events, Fatal msg)
    | (events, Ok validKeysFound) =>
        (events ++ (if validKeysFound then [] else [EvPrint no_valid_keys_line]),
         Done)
    end.
Proof. intros Hurl Hclone Hlog. unfold Main.main. by rewrite Hurl, Hclone, Hlog. Qed.

(** The trace of a run is that of its loop, with at most one printed
    line after it. *)
Lemma main_trace repoURL :
  (Main.main range_order w repoURL).1 = []
  \/ exists repoPath commitHashes validKeysFound line,
       (Main.main range_order w repoURL).1
       = (Main.scan_commits range_order w repoPath commitHashes 0 (cloned w)
            validKeysFound).1 ++ line
       /\ (line = [] \/ exists text, line = [EvPrint text]).
Proof.
  unfold Main.main. destruct (String.eqb repoURL ""); [by left|].
  destruct (cloneRepo w repoURL) as [repoPath|]; [|by left].
  destruct (getCommitHashes w repoPath) as [commitHashes|]; [|by left].
  right. exists repoPath, commitHashes, false.
  destruct (Main.scan_commits _ _ _ _ _ _ _) as [events [valid|msg]]; cbn [fst].
  - eexists. split; [done|]. destruct valid; eauto.
  - exists []. rewrite app_nil_r. eauto.
Qed.

(** A round whose checkout fails. *)
Lemma scan_commit_checkout_fails repoPath i commitHash wt e :
  checkoutCommit w repoPath commitHash = Some e ->
  Main.scan_commit range_order w repoPath i commitHash wt
  = ([EvCheckout i commitHash], wt,
     Err ("Error checking out commit " +:+ commitHash +:+ ": " +:+ e)).
Proof. intros H. unfold Main.scan_commit. by rewrite H. Qed.

(** A round whose scan fails: the checkout and the reads, no validation. *)
Lemma scan_commit_search_fails repoPath i commitHash wt e :
  checkoutCommit w repoPath commitHash = None ->
  searchIAMKeysInRepo Main.pats repoPath (tree_of w commitHash) = Err e ->
  Main.scan_commit range_order w repoPath i commitHash wt
  = (EvCheckout i commitHash ::
       map (fun path => EvRead i path (Some i))
           (files_read Main.pats repoPath (tree_of w commitHash)),
     checked_out w i commitHash,
     Err ("Error searching for IAM keys: " +:+ e)).
Proof.
  intros Hco Hs. unfold Main.scan_commit.
  rewrite Hco. cbn [checked_out wt_root wt_rev]. by rewrite Hs.
Qed.

End MainRuns.

(** The order of the sequential driver of src/main.go: in every run, each
    file read saw the tree of its own commit and follows the checkout of
    that commit, every checkout of commit i comes before every read of
    commit i, and every read of commit i comes before the checkout of
    commit i+1. *)
Lemma main_checkout_then_scan range_order w repoURL :
  let trace := (Main.main range_order w repoURL).1 in
  reads_follow_checkout trace
  /\ (forall n m i commitHash path seen,
        trace !! n = Some (EvCheckout i commitHash) ->
        trace !! m = Some (EvRead i path seen) -> n < m)
  /\ (forall n m i commitHash path seen,
        trace !! m = Some (EvRead i path seen) ->
        trace !! n = Some (EvCheckout (S i) commitHash) -> m < n).
Proof.
  intros trace.
  assert (StronglySorted in_order trace /\ reads_follow_checkout trace) as [Hs Hrd].
  { subst trace. destruct (main_trace range_order w repoURL)
      as [->|(repoPath & commitHashes & valid & line & -> & Hline)].
    { split; [constructor|]. by intros []. }
    pose proof (scan_commits_trace range_order w repoPath commitHashes 0 (cloned w) valid)
      as (Hs & _ & _ & Hrd).
    destruct Hline as [->|[text ->]]; [by rewrite app_nil_r|]. split.
    - apply StronglySorted_app_2; [|done|repeat constructor].
      intros e1 e2 _ ->%list_elem_of_singleton r1 r2 _ [=].
    - apply reads_follow_checkout_app; [done|]. by intros [|[|?]] ? ? ? [=]. }
  split; [done|]. split.
  - intros n m i h path seen Hn Hm.
    destruct (Nat.lt_trichotomy n m) as [?|[->|Hlt]]; [done|congruence|].
    pose proof (StronglySorted_lookup _ _ _ _ _ _ Hs Hlt Hm Hn (3 * i + 1) (3 * i)
                  eq_refl eq_refl). lia.
  - intros n m i h path seen Hm Hn.
    destruct (Nat.lt_trichotomy m n) as [?|[->|Hlt]]; [done|congruence|].
    pose proof (StronglySorted_lookup _ _ _ _ _ _ Hs Hlt Hn Hm (3 * S i) (3 * i + 1)
                  eq_refl eq_refl). lia.
Qed.

(** C4, as the specification has it, fails on src/main.go: when the
    checkout of the first of two commits fails the run is aborted, and
    the second commit is never checked out. *)
Lemma checkout_failure_stops_walk :
  Main.main Examples.in_map_order Examples.first_checkout_fails Examples.url
  = ([EvCheckout 0 "c1"],
     Fatal ("Error checking out commit c1: failed to checkout commit: exit status 1"
            +:+ ". Output: fatal: unable to read tree"))
  /\ ~ In (EvCheckout 1 "c2")
          (Main.main Examples.in_map_order Examples.first_checkout_fails Examples.url).1.
Proof. split; [vm_compute; reflexivity|]. vm_compute. intros [[=]|[]]. Qed.

(** C4, amended.  For every revision list and every revision whose
    checkout fails, src/main.go aborts the run with a fatal error at that
    revision at the latest: the revision contributes no file read and no
    validation, and no later revision is checked out or scanned; when the
    earlier revisions went through, the run ends with the failed checkout
    and the fatal message names the revision and the cause. *)
Theorem checkout_failure_aborts_run range_order w repoURL repoPath
    before commitHash rest e :
  String.eqb repoURL "" = false ->
  cloneRepo w repoURL = Ok repoPath ->
  getCommitHashes w repoPath = Ok (before ++ commitHash :: rest) ->
  checkoutCommit w repoPath commitHash = Some e ->
  exists events msg,
    Main.main range_order w repoURL = (events, Fatal msg)
    /\ indices_within 0 (S (length before)) events
    /\ (forall ev, In ev events -> ev_index ev = Some (length before) ->
          ev = EvCheckout (length before) commitHash)
    /\ (forall events0 valid,
          Main.scan_commits range_order w repoPath before 0 (cloned w) false
            = (events0, Ok valid) ->
          events = events0 ++ [EvCheckout (length before) commitHash]
          /\ msg = "Error checking out commit " +:+ commitHash +:+ ": " +:+ e).
Proof.
  intros Hurl Hclone Hlog Hco. rewrite (main_run _ _ _ _ _ Hurl Hclone Hlog).
  rewrite scan_commits_app.
  pose proof (scan_commits_trace range_order w repoPath before 0 (cloned w) false)
    as (_ & _ & Hidx & _).
  destruct (Main.scan_commits _ _ _ before 0 (cloned w) false)
    as [events0 [valid|msg]]; cbn [fst] in Hidx.
  - cbn [Main.scan_commits Nat.add].
    rewrite (scan_commit_checkout_fails _ _ _ _ _ _ _ Hco).
    eexists _, _. split; [reflexivity|]. split; [|split].
    + apply Forall_app. split.
      * apply (indices_within_weaken 0 (0 + length before)); [lia|lia|done].
      * apply Forall_singleton. cbn. intros j [= <-]. lia.
    + intros ev [Hin|[<-|[]]]%in_app_or Hev; [|done].
      unfold indices_within in Hidx. rewrite Forall_forall in Hidx.
      apply list_elem_of_In in Hin. specialize (Hidx _ Hin _ Hev). lia.
    + by intros ? ? [= <- <-].
  - eexists _, _. split; [reflexivity|]. split; [|split].
    + apply (indices_within_weaken 0 (0 + length before)); [lia|lia|done].
    + intros ev Hin Hev.
      unfold indices_within in Hidx. rewrite Forall_forall in Hidx.
      apply list_elem_of_In in Hin. specialize (Hidx _ Hin _ Hev). lia.
    + by intros ? ? [=].
Qed.

Lemma checkout_failure_aborts_run_witness :
  exists events msg,
    Main.main Examples.in_map_order Examples.first_checkout_fails Examples.url
      = (events, Fatal msg)
    /\ indices_within 0 1 events
    /\ (forall ev, In ev events -> ev_index ev = Some 0 -> ev = EvCheckout 0 "c1")
    /\ (forall events0 valid,
          Main.scan_commits Examples.in_map_order Examples.first_checkout_fails
            "/tmp/repo-clone-1" [] 0 (cloned Examples.first_checkout_fails) false
            = (events0, Ok valid) ->
          events = events0 ++ [EvCheckout 0 "c1"]
          /\ msg = "Error checking out commit " +:+ "c1" +:+ ": " +:+
                   "failed to checkout commit: exit status 1. Output: fatal: unable to read tree").
Proof.
  apply (checkout_failure_aborts_run Examples.in_map_order Examples.first_checkout_fails
           Examples.url "/tmp/repo-clone-1" [] "c1" ["c2"]); vm_compute; reflexivity.
Defined.

(** C5, as the specification has it, fails on src/main.go: with an
    unreadable file before the key file, the key file is never read, the
    scan of the revision returns an error instead of findings, and the
    run is aborted. *)
Lemma unreadable_file_stops_scan :
  files_read Main.pats "/tmp/repo-clone-1" (tree_of Examples.unreadable_first "c1")
    = ["/tmp/repo-clone-1/a.txt"]
  /\ Main.main Examples.in_map_order Examples.unreadable_first Examples.url
     = ([EvCheckout 0 "c1"; EvRead 0 "/tmp/repo-clone-1/a.txt" (Some 0)],
        Fatal ("Error searching for IAM keys: failed to search IAM keys in repository: "
               +:+ "failed to search IAM keys in file: failed to read file: "
               +:+ "open a.txt: permission denied")).
Proof. evaluate. Qed.

(** C5, amended.  For every revision scan, a failure to read one file
    ends the scan: [searchIAMKeysInRepo] returns an error and no
    findings, whichever patterns are in use, and wherever the unreadable
    file lies in the tree of the revision, nothing that follows it in the
    walk (in its directory or after it) is read: the files read are a
    prefix of the files that come before it followed by the file
    itself, and just those when nothing fails before it; in src/main.go
    the run is then aborted with a fatal error at that revision at the
    latest, with no validation for that revision and no checkout or scan
    of a later one. *)
Theorem read_failure_aborts_run range_order w repoURL repoPath
    before commitHash rest :
  String.eqb repoURL "" = false ->
  cloneRepo w repoURL = Ok repoPath ->
  getCommitHashes w repoPath = Ok (before ++ commitHash :: rest) ->
  unreadable_file (tree_of w commitHash) = true ->
  (forall pats, exists e,
      searchIAMKeysInRepo pats repoPath (tree_of w commitHash) = Err e)
  /\ (exists earlier path name e later,
        nodes_of repoPath (tree_of w commitHash)
        = earlier ++ (path, File name (Err e)) :: later)
  /\ (forall pats earlier path name e later,
        nodes_of repoPath (tree_of w commitHash)
        = earlier ++ (path, File name (Err e)) :: later ->
        files_read pats repoPath (tree_of w commitHash)
          `prefix_of` file_paths earlier ++ [path]
        /\ (no_failure earlier = true ->
            files_read pats repoPath (tree_of w commitHash)
            = file_paths earlier ++ [path]))
  /\ exists events msg,
       Main.main range_order w repoURL = (events, Fatal msg)
       /\ indices_within 0 (S (length before)) events
       /\ (forall path id secret,
             ~ In (EvValidate (length before) path id secret) events).
Proof.
  intros Hurl Hclone Hlog Hbad.
  split; [intros pats; by apply search_unreadable|].
  split; [by apply unreadable_file_node|].
  split; [intros; by eapply files_read_up_to|].
  rewrite (main_run _ _ _ _ _ Hurl Hclone Hlog), scan_commits_app.
  pose proof (scan_commits_trace range_order w repoPath before 0 (cloned w) false)
    as (_ & _ & Hidx & _).
  destruct (Main.scan_commits _ _ _ before 0 (cloned w) false)
    as [events0 [valid|msg]]; cbn [fst] in Hidx.
  - cbn [Main.scan_commits Nat.add].
    assert (exists events wt' msg,
              Main.scan_commit range_order w repoPath (length before) commitHash (cloned w)
              = (events, wt', Err msg)
              /\ indices_within (length before) (S (length before)) events
              /\ forall path id secret,
                   ~ In (EvValidate (length before) path id secret) events)
      as (events & wt' & msg & -> & Hidx1 & Hnoval).
    { destruct (checkoutCommit w repoPath commitHash) as [e|] eqn:Hco.
      - rewrite (scan_commit_checkout_fails _ _ _ _ _ _ _ Hco).
        eexists _, _, _. split; [reflexivity|]. split.
        + apply Forall_singleton. cbn. intros j [= <-]. lia.
        + by intros ??? [[=]|[]].
      - destruct (search_unreadable Main.pats repoPath _ Hbad) as [e He].
        rewrite (scan_commit_search_fails _ _ _ _ _ _ _ Hco He).
        eexists _, _, _. split; [reflexivity|]. split.
        + constructor; [cbn; intros j [= <-]; lia|].
          apply Forall_forall. intros ev [path [-> _]]%list_elem_of_fmap. cbn.
          intros j [= <-]. lia.
        + intros path id secret [[=]|Hin].
          apply in_map_iff in Hin as (? & [=] & _). }
    eexists _, _. split; [reflexivity|]. split.
    + apply Forall_app. split.
      * apply (indices_within_weaken 0 (0 + length before)); [lia|lia|done].
      * apply (indices_within_weaken (length before) (S (length before))); [lia|lia|done].
    + intros path id secret [Hin|Hin]%in_app_or; [|by eapply Hnoval].
      unfold indices_within in Hidx. rewrite Forall_forall in Hidx.
      apply list_elem_of_In in Hin. specialize (Hidx _ Hin _ eq_refl). lia.
  - eexists _, _. split; [reflexivity|]. split.
    + apply (indices_within_weaken 0 (0 + length before)); [lia|lia|done].
    + intros path id secret Hin.
      unfold indices_within in Hidx. rewrite Forall_forall in Hidx.
      apply list_elem_of_In in Hin. specialize (Hidx _ Hin _ eq_refl). lia.
Qed.

Lemma read_failure_aborts_run_witness :
  (forall pats, exists e,
      searchIAMKeysInRepo pats "/tmp/repo-clone-1"
        (tree_of Examples.unreadable_in_subdirectory "c1") = Err e)
  /\ (exists earlier path name e later,
        nodes_of "/tmp/repo-clone-1" (tree_of Examples.unreadable_in_subdirectory "c1")
        = earlier ++ (path, File name (Err e)) :: later)
  /\ (forall pats earlier path name e later,
        nodes_of "/tmp/repo-clone-1" (tree_of Examples.unreadable_in_subdirectory "c1")
        = earlier ++ (path, File name (Err e)) :: later ->
        files_read pats "/tmp/repo-clone-1"
          (tree_of Examples.unreadable_in_subdirectory "c1")
          `prefix_of` file_paths earlier ++ [path]
        /\ (no_failure earlier = true ->
            files_read pats "/tmp/repo-clone-1"
              (tree_of Examples.unreadable_in_subdirectory "c1")
            = file_paths earlier ++ [path]))
  /\ exists events msg,
       Main.main Examples.in_map_order Examples.unreadable_in_subdirectory Examples.url
         = (events, Fatal msg)
       /\ indices_within 0 1 events
       /\ (forall path id secret, ~ In (EvValidate 0 path id secret) events).
Proof.
  apply (read_failure_aborts_run Examples.in_map_order
           Examples.unreadable_in_subdirectory
           Examples.url "/tmp/repo-clone-1" [] "c1" []); vm_compute; reflexivity.
Defined.

(** In that tree the scan stops in the sub-directory: neither the key
    file next to the unreadable one nor the file after the sub-directory
    is read. *)
Example unreadable_in_subdirectory_reads :
  files_read Main.pats "/tmp/repo-clone-1"
    (tree_of Examples.unreadable_in_subdirectory "c1")
  = ["/tmp/repo-clone-1/sub/bad.txt"].
Proof. evaluate. Qed.

(** [strings.Split] never returns the empty list. *)
Lemma Split_LF_nonempty s : Split_LF s <> [].
Proof.
  induction s as [|a t IH]; [done|]. cbn [Split_LF].
  destruct (Ascii.eqb a _); [done|]. by destruct (Split_LF t).
Qed.

(** C9, as the specification has it, fails on src/main.go: on a
    repository without a commit git log fails (exit status 128), and
    the run is aborted with a fatal error instead of ending without
    error and with an empty report. *)
Lemma empty_repository_is_fatal :
  Main.main Examples.in_map_order Examples.unborn_head Examples.url
  = ([],
     Fatal ("Error getting commit hashes: failed to get commit hashes: exit status 128"
            +:+ ". Output: fatal: your current branch 'master' "
            +:+ "does not have any commits yet")).
Proof. evaluate. Qed.

(** C9, amended.  For a repository with zero revisions the enumeration
    fails (git log fails without a commit, and [getCommitHashes] returns
    its error), and src/main.go aborts the run at its guard with the
    fatal message that names the failure, before any checkout, read,
    validation or printed line: there is no report.  No run of
    src/main.go ends without error and with nothing done: a run that
    comes to its end has listed at least one revision and has begun by
    checking out the first one. *)
Theorem no_revisions_run_aborts range_order w repoURL repoPath :
  String.eqb repoURL "" = false ->
  cloneRepo w repoURL = Ok repoPath ->
  (forall e,
      cmd_err (git_log w) = Some e ->
      exists e', getCommitHashes w repoPath = Err e')
  /\ (forall e,
        getCommitHashes w repoPath = Err e ->
        Main.main range_order w repoURL
        = ([], Fatal ("Error getting commit hashes: " +:+ e)))
  /\ (forall events,
        Main.main range_order w repoURL = (events, Done) ->
        exists commitHash rest events',
          getCommitHashes w repoPath = Ok (commitHash :: rest)
          /\ events = EvCheckout 0 commitHash :: events').
Proof.
  intros Hurl Hclone. split; [|split].
  - intros e He. unfold getCommitHashes. rewrite He.
    destruct (chdir w repoPath); eauto.
  - intros e Hlog. unfold Main.main. by rewrite Hurl, Hclone, Hlog.
  - intros events Hmain.
    destruct (getCommitHashes w repoPath) as [commitHashes|e] eqn:Hlog.
    + assert (commitHashes <> []) as Hne.
      { unfold getCommitHashes in Hlog. destruct (chdir w repoPath); [done|].
        destruct (cmd_err (git_log w)); [done|]. injection Hlog as <-.
        apply Split_LF_nonempty. }
      destruct commitHashes as [|commitHash rest]; [done|].
      rewrite (main_run _ _ _ _ _ Hurl Hclone Hlog) in Hmain.
      cbn [Main.scan_commits] in Hmain.
      destruct (scan_commit_shape range_order w repoPath 0 commitHash (cloned w))
        as (paths & vals & Hshape & _).
      destruct (Main.scan_commit _ _ _ _ _ _) as [[events0 wt'] [valid|msg]];
        cbn [fst] in Hshape; subst events0; [|done].
      destruct (Main.scan_commits _ _ _ rest _ _ _) as [events1 [valid'|msg]];
        [|done].
      injection Hmain as <-. eexists _, _, _. split; [done|]. reflexivity.
    + unfold Main.main in Hmain. by rewrite Hurl, Hclone, Hlog in Hmain.
Qed.

Lemma no_revisions_run_aborts_witness :
  (forall e,
      cmd_err (git_log Examples.unborn_head) = Some e ->
      exists e', getCommitHashes Examples.unborn_head "/tmp/repo-clone-1" = Err e')
  /\ (forall e,
        getCommitHashes Examples.unborn_head "/tmp/repo-clone-1" = Err e ->
        Main.main Examples.in_map_order Examples.unborn_head Examples.url
        = ([], Fatal ("Error getting commit hashes: " +:+ e)))
  /\ (forall events,
        Main.main Examples.in_map_order Examples.unborn_head Examples.url
        = (events, Done) ->
        exists commitHash rest events',
          getCommitHashes Examples.unborn_head "/tmp/repo-clone-1"
          = Ok (commitHash :: rest)
          /\ events = EvCheckout 0 commitHash :: events').
Proof.
  apply (no_revisions_run_aborts Examples.in_map_order Examples.unborn_head
           Examples.url "/tmp/repo-clone-1"); vm_compute; reflexivity.
Defined.

(** ** getCommitHashes *)

Example Split_LF_lines :
  Split_LF ("c1" +:+ LF +:+ "c2") = ["c1"; "c2"]
  /\ Split_LF ("c1" +:+ LF) = ["c1"; ""]
  /\ Split_LF "" = [""].
Proof. evaluate. Qed.

(** C10.  Whenever the enumeration succeeds, [getCommitHashes] returns a
    non-empty list; when the enumeration output is the empty text the
    list is the one-element list holding the empty string, and the driver
    takes that element for a revision: src/main.go starts its run by
    checking out the empty string, and in src/unnamed/part_000 the first
    goroutine started does. *)
Theorem empty_log_gives_one_revision range_order w repoPath commitHashes :
  getCommitHashes w repoPath = Ok commitHashes ->
  commitHashes <> []
  /\ (cmd_output (git_log w) = "" ->
      commitHashes = [""]
      /\ (forall repoURL,
            String.eqb repoURL "" = false ->
            cloneRepo w repoURL = Ok repoPath ->
            exists events,
              (Main.main range_order w repoURL).1 = EvCheckout 0 "" :: events)
      /\ (exists s,
            Part000.run range_order w repoPath commitHashes
              [Part000.TMain; Part000.TCommit 0]
              (Part000.init commitHashes (cloned w)) = Some s
            /\ Part000.st_trace s = [EvCheckout 0 ""])).
Proof.
  intros Hlog.
  assert (commitHashes = Split_LF (cmd_output (git_log w))) as Hsplit.
  { unfold getCommitHashes in Hlog. destruct (chdir w repoPath); [done|].
    destruct (cmd_err (git_log w)); [done|]. by injection Hlog. }
  split; [rewrite Hsplit; apply Split_LF_nonempty|].
  intros Hout. rewrite Hout in Hsplit. cbn in Hsplit. subst commitHashes.
  split; [done|]. split.
  - intros repoURL Hurl Hclone. rewrite (main_run _ _ _ _ _ Hurl Hclone Hlog).
    cbn [Main.scan_commits].
    destruct (scan_commit_shape range_order w repoPath 0 "" (cloned w))
      as (paths & vals & Hshape & _).
    destruct (Main.scan_commit _ _ _ _ _ _) as [[events wt'] [valid|msg]];
      cbn [fst] in *; subst events; cbn; eauto.
  - unfold Part000.run, Part000.step. cbn.
    destruct (checkoutCommit w repoPath ""); cbn; eauto.
Qed.

Lemma empty_log_gives_one_revision_witness :
  [""] <> []
  /\ (cmd_output (git_log Examples.no_commits) = "" ->
      [""] = [""]
      /\ (forall repoURL,
            String.eqb repoURL "" = false ->
            cloneRepo Examples.no_commits repoURL = Ok "/tmp/repo-clone-1" ->
            exists events,
              (Main.main Examples.in_map_order Examples.no_commits repoURL).1
              = EvCheckout 0 "" :: events)
      /\ (exists s,
            Part000.run Examples.in_map_order Examples.no_commits "/tmp/repo-clone-1" [""]
              [Part000.TMain; Part000.TCommit 0]
              (Part000.init [""] (cloned Examples.no_commits)) = Some s
            /\ Part000.st_trace s = [EvCheckout 0 ""])).
Proof.
  apply (empty_log_gives_one_revision Examples.in_map_order Examples.no_commits
           "/tmp/repo-clone-1" [""]).
  vm_compute. reflexivity.
Defined.

(** ** validateIAMKey *)

(** C3, as the specification has it, fails: a validation that times out
    is recorded exactly as one for an identifier the authority does not
    know; both variants of [validateIAMKey] return the same boolean in
    the two cases, the whole run of src/main.go is the same, and so no
    reading of the boolean gives one outcome for the timeout and another
    for the unknown identifier. *)
Lemma timeout_recorded_as_nonexistent :
  Main.validateIAMKey Examples.authority_times_out
      "AKIA1234567890ABCD12" "abcDEF1234567890+/=="
    = Main.validateIAMKey Examples.authority_knows_no_key
        "AKIA1234567890ABCD12" "abcDEF1234567890+/=="
  /\ Part000.validateIAMKey Examples.authority_times_out
       "AKIA1234567890ABCD12" "abcDEF1234567890+/=="
     = Part000.validateIAMKey Examples.authority_knows_no_key
         "AKIA1234567890ABCD12" "abcDEF1234567890+/=="
  /\ Main.main Examples.in_map_order Examples.authority_times_out Examples.url
     = Main.main Examples.in_map_order Examples.authority_knows_no_key Examples.url
  /\ (forall (outcome : Type) (read : bool -> outcome) (indeterminate invalid : outcome),
        indeterminate <> invalid ->
        ~ (read (Main.validateIAMKey Examples.authority_times_out
                   "AKIA1234567890ABCD12" "abcDEF1234567890+/==")
             = indeterminate
           /\ read (Main.validateIAMKey Examples.authority_knows_no_key
                      "AKIA1234567890ABCD12" "abcDEF1234567890+/==")
                = invalid))
  /\ (forall (outcome : Type) (read : bool -> outcome) (indeterminate invalid : outcome),
        indeterminate <> invalid ->
        ~ (read (Part000.validateIAMKey Examples.authority_times_out
                   "AKIA1234567890ABCD12" "abcDEF1234567890+/==")
             = indeterminate
           /\ read (Part000.validateIAMKey Examples.authority_knows_no_key
                      "AKIA1234567890ABCD12" "abcDEF1234567890+/==")
                = invalid)).
Proof.
  split; [vm_compute; reflexivity|]. split; [vm_compute; reflexivity|].
  split; [vm_compute; reflexivity|].
  split; intros outcome read indeterminate invalid Hne [Htimeout Hnone];
    vm_compute in Htimeout, Hnone; congruence.
Qed.

(** C3, amended.  For every candidate whose validation fails, for
    whatever reason (the session cannot be set up, or the call to the
    authority returns an error of any kind, a nonexistent identifier
    included), [validateIAMKey] returns false in both variants: the
    failure is never taken for a valid key, and it is not told apart from
    an identifier the authority does not know. *)
Theorem failed_validation_is_false w accessKeyID secretAccessKey :
  (is_Some (new_session w) \/ is_Some (GetCallerIdentity w accessKeyID secretAccessKey) ->
   Main.validateIAMKey w accessKeyID secretAccessKey = false)
  /\ (is_Some (new_session w) \/ is_Some (GetAccessKeyLastUsed w accessKeyID).2 ->
      Part000.validateIAMKey w accessKeyID secretAccessKey = false).
Proof.
  split.
  - unfold Main.validateIAMKey. intros [[e ->]|[e ->]]; [done|].
    by destruct (new_session w).
  - unfold Part000.validateIAMKey. intros [[e ->]|[e He]]; [done|].
    destruct (new_session w); [done|].
    destruct (GetAccessKeyLastUsed w accessKeyID) as [result err]. cbn in He. subst err.
    destruct e as [code message|message], result as [[userName|]|]; try done;
      by destruct (String.eqb code Part000.ErrCodeNoSuchEntityException).
Qed.

Lemma failed_validation_is_false_witness :
  Main.validateIAMKey Examples.authority_times_out
    "AKIA1234567890ABCD12" "abcDEF1234567890+/==" = false
  /\ Part000.validateIAMKey Examples.authority_times_out
       "AKIA1234567890ABCD12" "abcDEF1234567890+/==" = false.
Proof.
  destruct (failed_validation_is_false Examples.authority_times_out
              "AKIA1234567890ABCD12" "abcDEF1234567890+/==") as [Hmain Hpart].
  split; [apply Hmain|apply Hpart]; right; vm_compute; eauto.
Defined.

(** ** The goroutines of src/unnamed/part_000 *)

(** Checks that a schedule is a run of [main]: each condition of
    [Part000.reachable] by evaluation. *)
Ltac run_schedule :=
  split; [vm_compute; reflexivity|];
  split; [vm_compute; reflexivity|];
  split; vm_compute; reflexivity.


(** C1 on src/unnamed/part_000.  With two commits there is a run in which
    the second commit is checked out between the checkout of the first
    and its scan: the file read attributed to the first commit is a file
    of the second, and the trace breaks the order checkout, scan, next
    checkout. *)
Theorem scan_overtaken_by_next_checkout :
  exists s,
    Part000.reachable Examples.in_map_order Examples.two_distinct_commits Examples.url s
    /\ Part000.st_trace s
       = [EvCheckout 0 "c1"; EvCheckout 1 "c2";
          EvRead 0 "/tmp/repo-clone-1/c2.env" (Some 1)]
    /\ ~ reads_follow_checkout (Part000.st_trace s).
Proof.
  eexists. split; [|split].
  - exists "/tmp/repo-clone-1", ["c1"; "c2"],
      [Part000.TMain; Part000.TMain; Part000.TCommit 0; Part000.TCommit 1;
       Part000.TCommit 0].
    run_schedule.
  - reflexivity.
  - intros H. by destruct (H 2 0 "/tmp/repo-clone-1/c2.env" (Some 1) eq_refl) as [[=] _].
Qed.

(** ** How often a key is validated *)

Lemma validation_calls_app t1 t2 id :
  validation_calls (t1 ++ t2) id = validation_calls t1 id + validation_calls t2 id.
Proof. unfold validation_calls. by rewrite List.filter_app, length_app. Qed.

Lemma validation_calls_reads i seen (paths : list string) id :
  validation_calls (map (fun path => EvRead i path seen) paths) id = 0.
Proof. induction paths as [|path paths IH]; [done|]. exact IH. Qed.

(** Among the pairs of a list without repeated keys, at most one has key [k]. *)
Lemma count_key_NoDup {A} (l : list (string * A)) (k : string) :
  NoDup (l.*1) ->
  length (filter (fun kv : string * A => kv.1 = k) l)
  = if decide (k ∈ l.*1) then 1 else 0.
Proof.
  induction l as [|[k' v] l IH]; [done|].
  cbn [fmap list_fmap fst]. intros [Hnin Hnd]%NoDup_cons. rewrite filter_cons. cbn [fst].
  specialize (IH Hnd). destruct (decide (k' = k)) as [->|Hne].
  - rewrite decide_True by (by left). cbn [length]. rewrite IH.
    by rewrite decide_False.
  - rewrite IH. destruct (decide (k ∈ l.*1)) as [Hin|Hnin'].
    + rewrite decide_True by (by right). done.
    + rewrite decide_False; [done|]. by intros [->|?]%elem_of_cons.
Qed.

Section ValidationCount.
Variable range_order : range_fn.
Hypothesis range_once :
  forall (A : Type) (m : gmap string A), range_order A m ≡ₚ map_to_list m.

(** A [range] over a map meets a given key once if the map holds it,
    and not at all otherwise. *)
Lemma range_key_count {A} (m : gmap string A) (k : string) :
  length (filter (fun kv : string * A => kv.1 = k) (range_order A m))
  = if decide (is_Some (m !! k)) then 1 else 0.
Proof.
  rewrite (range_once A m), count_key_NoDup by apply NoDup_fst_map_to_list.
  destruct (decide (k ∈ (map_to_list m).*1)) as [Hin|Hnin].
  - rewrite decide_True; [done|].
    apply list_elem_of_fmap in Hin as ([k' v] & -> & Hin).
    apply elem_of_map_to_list in Hin. eauto.
  - rewrite decide_False; [done|]. intros [v Hv]. apply Hnin.
    apply list_elem_of_fmap. exists (k, v). split; [done|].
    by apply elem_of_map_to_list.
Qed.

Lemma keys_of_file_count (path : string) (pairs : list (string * string)) (id : string) :
  length (filter (fun key : string * string * string => key.1.2 = id)
            (map (fun '(accessKeyID, secretAccessKey) =>
                    (path, accessKeyID, secretAccessKey)) pairs))
  = length (filter (fun kv : string * string => kv.1 = id) pairs).
Proof.
  induction pairs as [|[k v] pairs IH]; [done|].
  cbn [map]. rewrite !filter_cons. cbn [fst snd].
  destruct (decide (k = id)); cbn [length]; by rewrite IH.
Qed.

Lemma keys_in_entries_count (entries : list (string * gmap string string)) (id : string) :
  length (filter (fun key : string * string * string => key.1.2 = id)
            (flat_map (fun '(path, iamKeys) =>
                         map (fun '(accessKeyID, secretAccessKey) =>
                                (path, accessKeyID, secretAccessKey))
                             (range_order _ iamKeys))
                      entries))
  = length (filter (holds id) entries).
Proof.
  induction entries as [|[path iamKeys] entries IH]; [done|].
  cbn [flat_map]. rewrite filter_app, length_app, IH, keys_of_file_count.
  rewrite range_key_count, filter_cons. unfold holds at 2. cbn [snd].
  by destruct (decide (is_Some (iamKeys !! id))).
Qed.

(** The validation loops of one commit call [validateIAMKey] for [id]
    once for every file in which the scan found it. *)
Lemma keys_in_order_count found id :
  length (filter (fun key : string * string * string => key.1.2 = id)
            (keys_in_order range_order found))
  = files_holding found id.
Proof.
  unfold keys_in_order, files_holding. rewrite keys_in_entries_count.
  by rewrite (range_once _ found).
Qed.

Lemma validate_keys_calls w i commitHash keys id :
  validation_calls (flat_map (Main.validate_key w i commitHash) keys) id
  = length (filter (fun key : string * string * string => key.1.2 = id) keys).
Proof.
  induction keys as [|[[path k] v] keys IH]; [done|].
  cbn [flat_map]. rewrite validation_calls_app, IH, filter_cons. cbn [fst snd].
  unfold Main.validate_key, validation_calls. cbn [List.filter validates].
  destruct (String.eqb_spec k id) as [->|Hne].
  - rewrite decide_True by done.
    by destruct (Main.validateIAMKey w id v).
  - rewrite decide_False by done.
    by destruct (Main.validateIAMKey w k v).
Qed.

Lemma scan_commits_calls w repoPath commitHashes i wt validKeysFound events valid id :
  Main.scan_commits range_order w repoPath commitHashes i wt validKeysFound
    = (events, Ok valid) ->
  validation_calls events id = occurrences Main.pats w repoPath commitHashes id.
Proof.
  revert i wt validKeysFound events valid.
  induction commitHashes as [|h rest IH]; intros i wt validKeysFound events valid.
  { by intros [= <- <-]. }
  cbn [Main.scan_commits]. unfold Main.scan_commit, occurrences.
  destruct (checkoutCommit w repoPath h); [done|].
  cbn [checked_out wt_root wt_rev map sum_list sum_list_with].
  destruct (searchIAMKeysInRepo Main.pats repoPath (tree_of w h)) as [found|e]; [|done].
  destruct (Main.scan_commits _ _ _ rest _ _ _) as [events' [valid'|msg]] eqn:Hrest; [|done].
  intros [= <- <-].
  change (validation_calls (EvCheckout i h :: ?t) id) with (validation_calls t id).
  rewrite !validation_calls_app, validation_calls_reads, validate_keys_calls.
  rewrite keys_in_order_count, (IH _ _ _ _ _ Hrest). done.
Qed.
End ValidationCount.

(** ** What a run prints *)

Lemma printed_app t1 t2 : printed (t1 ++ t2) = printed t1 ++ printed t2.
Proof. apply flat_map_app. Qed.

Lemma valid_lines_app w commitHashes t1 t2 :
  Main.valid_lines w commitHashes (t1 ++ t2)
  = Main.valid_lines w commitHashes t1 ++ Main.valid_lines w commitHashes t2.
Proof. apply flat_map_app. Qed.

Lemma any_line_app l1 l2 : any_line (l1 ++ l2) = any_line l1 || any_line l2.
Proof. by destruct l1. Qed.

Lemma reads_print_nothing w commitHashes i seen (paths : list string) :
  printed (map (fun path => EvRead i path seen) paths) = []
  /\ Main.valid_lines w commitHashes (map (fun path => EvRead i path seen) paths) = [].
Proof. induction paths as [|path paths [IH1 IH2]]; [done|]. split; [exact IH1|exact IH2]. Qed.

Lemma validate_key_print w commitHashes i key :
  let t := Main.validate_key w i (nth i commitHashes "") key in
  printed t = Main.valid_lines w commitHashes t
  /\ Main.key_valid w key = any_line (printed t).
Proof.
  destruct key as [[path id] secret]. unfold Main.validate_key, Main.key_valid.
  cbn [printed Main.valid_lines flat_map].
  destruct (Main.validateIAMKey w id secret) eqn:Hvalid; cbn; by rewrite ?Hvalid.
Qed.

(** The validation loops of a commit print a line for each call that
    finds its key valid, and nothing else. *)
Lemma validate_keys_print w commitHashes i keys :
  let t := flat_map (Main.validate_key w i (nth i commitHashes "")) keys in
  printed t = Main.valid_lines w commitHashes t
  /\ existsb (Main.key_valid w) keys = any_line (printed t).
Proof.
  induction keys as [|key keys [IH1 IH2]]; [done|].
  destruct (validate_key_print w commitHashes i key) as [H1 H2].
  cbn [flat_map existsb]. split.
  - by rewrite printed_app, valid_lines_app, H1, IH1.
  - by rewrite printed_app, any_line_app, H2, IH2.
Qed.

Lemma scan_commits_print range_order w repoPath earlier commitHashes wt
    validKeysFound events valid :
  Main.scan_commits range_order w repoPath commitHashes (length earlier) wt validKeysFound
    = (events, Ok valid) ->
  printed events = Main.valid_lines w (earlier ++ commitHashes) events
  /\ valid = validKeysFound || any_line (printed events).
Proof.
  revert earlier wt validKeysFound events valid.
  induction commitHashes as [|h rest IH]; intros earlier wt validKeysFound events valid.
  { intros [= <- <-]. by rewrite orb_false_r. }
  cbn [Main.scan_commits]. unfold Main.scan_commit.
  destruct (checkoutCommit w repoPath h); [done|].
  cbn [checked_out wt_root wt_rev].
  destruct (searchIAMKeysInRepo Main.pats repoPath (tree_of w h)) as [found|e]; [|done].
  destruct (Main.scan_commits _ _ _ rest _ _ _) as [events' [valid'|msg]] eqn:Hrest; [|done].
  intros [= <- <-].
  replace (S (length earlier)) with (length (earlier ++ [h])) in Hrest
    by (rewrite length_app; cbn; lia).
  apply IH in Hrest as [Hprint ->]. rewrite <- app_assoc in Hprint. cbn [app] in Hprint.
  assert (nth (length earlier) (earlier ++ h :: rest) "" = h) as Hnth
    by apply nth_middle.
  pose proof (validate_keys_print w (earlier ++ h :: rest) (length earlier)
                (keys_in_order range_order found)) as [Hkeys Hany].
  rewrite Hnth in Hkeys, Hany.
  pose proof (reads_print_nothing w (earlier ++ h :: rest) (length earlier)
                (Some (length earlier)) (files_read Main.pats repoPath (tree_of w h)))
    as [Hr1 Hr2].
  change (EvCheckout ?i h :: ?t) with ([EvCheckout i h] ++ t).
  rewrite !printed_app, !valid_lines_app, Hr1, Hr2, Hkeys, Hprint, Hany.
  split; [done|]. cbn [printed Main.valid_lines flat_map app].
  rewrite Hkeys, any_line_app. by rewrite orb_assoc.
Qed.

(** C2, as the specification has it, fails on src/main.go: an identifier
    observed in two revisions is submitted to validation twice, and the
    output of the run lists no occurrence at all. *)
Lemma identifier_validated_per_revision :
  Main.main Examples.in_map_order Examples.two_commits Examples.url
    = ([EvCheckout 0 "c1";
        EvRead 0 "/tmp/repo-clone-1/config.env" (Some 0);
        EvValidate 0 "/tmp/repo-clone-1/config.env"
          "AKIA1234567890ABCD12" "abcDEF1234567890+/==";
        EvCheckout 1 "c2";
        EvRead 1 "/tmp/repo-clone-1/config.env" (Some 1);
        EvValidate 1 "/tmp/repo-clone-1/config.env"
          "AKIA1234567890ABCD12" "abcDEF1234567890+/==";
        EvPrint (LF +:+ "No valid IAM keys found in the repository." +:+ LF)],
       Done)
  /\ ~ validation_calls
         (Main.main Examples.in_map_order Examples.two_commits Examples.url).1
         "AKIA1234567890ABCD12" <= 1.
Proof. split; [vm_compute; reflexivity|]. vm_compute. lia. Qed.

(** C2, amended.  In every run of src/main.go that comes to its end, each
    identifier is submitted to validation once for every (revision, file)
    pair at which the scan finds it, in whatever order the maps are
    ranged over: an identifier found in one file of each of N revisions
    is validated N times.  The run lists no occurrences: it prints one
    line, naming the revision and the identifier, for each validation
    call that finds the key valid, and one closing line when none does. *)
Theorem one_validation_per_occurrence range_order w repoURL events :
  (forall (A : Type) (m : gmap string A), range_order A m ≡ₚ map_to_list m) ->
  Main.main range_order w repoURL = (events, Done) ->
  exists repoPath commitHashes,
    cloneRepo w repoURL = Ok repoPath
    /\ getCommitHashes w repoPath = Ok commitHashes
    /\ (forall id,
          validation_calls events id = occurrences Main.pats w repoPath commitHashes id)
    /\ printed events
       = Main.valid_lines w commitHashes events
         ++ (if any_line (Main.valid_lines w commitHashes events) then []
             else [no_valid_keys_line]).
Proof.
  intros Honce. unfold Main.main. destruct (String.eqb repoURL ""); [done|].
  destruct (cloneRepo w repoURL) as [repoPath|] eqn:Hclone; [|done].
  destruct (getCommitHashes w repoPath) as [commitHashes|] eqn:Hlog; [|done].
  destruct (Main.scan_commits _ _ _ _ _ _ _) as [events0 [valid|msg]] eqn:Hloop; [|done].
  intros [= <-]. exists repoPath, commitHashes. split; [done|]. split; [done|]. split.
  - intros id. rewrite validation_calls_app.
    rewrite (scan_commits_calls range_order Honce _ _ _ _ _ _ _ _ id Hloop).
    destruct valid; cbn; lia.
  - apply (scan_commits_print range_order w repoPath []) in Hloop as [Hprint ->].
    cbn [app orb] in *. rewrite printed_app, valid_lines_app, <- Hprint.
    destruct (any_line (printed events0)) eqn:Hany;
      cbn [printed Main.valid_lines flat_map app]; rewrite ?app_nil_r, Hany, ?app_nil_r; done.
Qed.

Lemma one_validation_per_occurrence_witness :
  exists repoPath commitHashes,
    cloneRepo Examples.two_commits Examples.url = Ok repoPath
    /\ getCommitHashes Examples.two_commits repoPath = Ok commitHashes
    /\ (forall id,
          validation_calls
            (Main.main Examples.in_map_order Examples.two_commits Examples.url).1 id
          = occurrences Main.pats Examples.two_commits repoPath commitHashes id)
    /\ printed (Main.main Examples.in_map_order Examples.two_commits Examples.url).1
       = Main.valid_lines Examples.two_commits commitHashes
           (Main.main Examples.in_map_order Examples.two_commits Examples.url).1
         ++ (if any_line
                  (Main.valid_lines Examples.two_commits commitHashes
                     (Main.main Examples.in_map_order Examples.two_commits Examples.url).1)
             then [] else [no_valid_keys_line]).
Proof.
  apply (one_validation_per_occurrence Examples.in_map_order Examples.two_commits
           Examples.url).
  - intros A m. reflexivity.
  - vm_compute. reflexivity.
Defined.

(** ** Further runs of src/unnamed/part_000 *)

(** Each key found is validated twice there: once for the printed
    boolean, once in the goroutine started for it. *)
Lemma part000_validates_twice :
  exists s,
    Part000.reachable Examples.in_map_order Examples.authority_knows_no_key Examples.url s
    /\ validation_calls (Part000.st_trace s) "AWS_ACCESS_KEY_ID" = 2.
Proof.
  eexists. split.
  - exists "/tmp/repo-clone-1", ["c1"],
      [Part000.TMain; Part000.TCommit 0; Part000.TCommit 0; Part000.TCommit 0;
       Part000.TKey 0].
    run_schedule.
  - vm_compute. reflexivity.
Qed.

(** A failed checkout there is sent on the error channel: the run is
    aborted if [main] receives it, and ends as if nothing had happened if
    [main] has finished its receives before. *)
Lemma part000_checkout_failure_fatal_or_lost :
  (exists s msg,
     Part000.reachable Examples.in_map_order Examples.first_checkout_fails Examples.url s
     /\ Part000.st_main s = Part000.Exited (Fatal msg))
  /\ (exists s,
        Part000.reachable Examples.in_map_order Examples.first_checkout_fails Examples.url s
        /\ Part000.st_main s = Part000.Exited Done
        /\ In (EvCheckout 0 "c1") (Part000.st_trace s)).
Proof.
  split.
  - eexists _, _. split.
    + exists "/tmp/repo-clone-1", ["c1"; "c2"],
        [Part000.TMain; Part000.TMain; Part000.TCommit 0; Part000.TCommit 0;
         Part000.TMain; Part000.TMain].
      run_schedule.
    + reflexivity.
  - eexists. split.
    + exists "/tmp/repo-clone-1", ["c1"; "c2"],
        [Part000.TMain; Part000.TMain; Part000.TCommit 0;
         Part000.TMain; Part000.TMain; Part000.TMain; Part000.TMain].
      run_schedule.
    + split; [reflexivity|]. vm_compute. auto.
Qed.

(** * Further properties of the code *)

(** ** Texts *)

Lemma string_app_cons (a : ascii) (s t : string) :
  String a s +:+ t = String a (s +:+ t).
Proof. reflexivity. Qed.

Lemma string_app_nil_r (s : string) : s +:+ "" = s.
Proof. induction s as [|a s IH]; [done|]. by rewrite string_app_cons, IH. Qed.

Lemma string_app_assoc (s t u : string) : (s +:+ t) +:+ u = s +:+ (t +:+ u).
Proof. induction s as [|a s IH]; [done|]. by rewrite !string_app_cons, IH. Qed.

Lemma string_app_length (s t : string) :
  String.length (s +:+ t) = String.length s + String.length t.
Proof.
  induction s as [|a s IH]; [done|]. rewrite string_app_cons. cbn [String.length].
  by rewrite IH.
Qed.

Lemma take_bytes_app (u t : string) : take_bytes (String.length u) (u +:+ t) = u.
Proof.
  induction u as [|a u IH]; [by destruct t|].
  rewrite string_app_cons. cbn [String.length take_bytes]. by rewrite IH.
Qed.

Lemma consumed_app (u t : string) : consumed (u +:+ t) t = u.
Proof.
  unfold consumed. rewrite string_app_length.
  replace (String.length u + String.length t - String.length t) with (String.length u)
    by lia.
  apply take_bytes_app.
Qed.

(** ** getCommitHashes: the list of lines *)

Lemma Split_LF_lines_of (s : string) :
  String.concat LF (Split_LF s) = s
  /\ Forall (fun piece => has_byte LF_byte piece = false) (Split_LF s)
  /\ length (Split_LF s) = S (count_byte LF_byte s).
Proof.
  induction s as [|a t (IHcat & IHall & IHlen)]; [by repeat constructor|].
  cbn [Split_LF count_byte]. fold LF_byte.
  destruct (Ascii.eqb_spec a LF_byte) as [->|Hne].
  - split; [|split].
    + cbn [String.concat]. destruct (Split_LF t) as [|piece pieces] eqn:Ht.
      { by destruct (Split_LF_nonempty t). }
      by rewrite IHcat.
    + by constructor.
    + cbn [length]. by rewrite IHlen.
  - destruct (Split_LF t) as [|piece pieces] eqn:Ht.
    { by destruct (Split_LF_nonempty t). }
    apply Forall_cons in IHall as [Hpiece Hpieces]. split; [|split].
    + rewrite <- IHcat. cbn [String.concat]. by destruct pieces.
    + constructor; [|done]. cbn [has_byte]. rewrite Hpiece.
      by apply Ascii.eqb_neq in Hne as ->.
    + cbn [length] in *. by rewrite IHlen.
Qed.

(** X1.  The commit list [getCommitHashes] returns is the output of git
    log cut at its newlines: joined by newlines it gives the output back,
    no element holds a newline, and there is one element more than the
    output has newlines. *)
Theorem getCommitHashes_lines w repoPath commitHashes :
  getCommitHashes w repoPath = Ok commitHashes ->
  String.concat LF commitHashes = cmd_output (git_log w)
  /\ Forall (fun commitHash => has_byte LF_byte commitHash = false) commitHashes
  /\ length commitHashes = S (count_byte LF_byte (cmd_output (git_log w))).
Proof.
  unfold getCommitHashes. destruct (chdir w repoPath); [done|].
  destruct (cmd_err (git_log w)); [done|]. intros [= <-]. apply Split_LF_lines_of.
Qed.

Lemma getCommitHashes_lines_witness :
  String.concat LF ["c1"; "c2"] = cmd_output (git_log Examples.two_commits)
  /\ Forall (fun commitHash => has_byte LF_byte commitHash = false) ["c1"; "c2"]
  /\ length ["c1"; "c2"] = S (count_byte LF_byte (cmd_output (git_log Examples.two_commits))).
Proof.
  apply (getCommitHashes_lines Examples.two_commits "/tmp/repo-clone-1" ["c1"; "c2"]).
  vm_compute. reflexivity.
Defined.

(** ** searchIAMKeysInRepo: what a scan reads and records *)

Section ScanFacts.
Variable pats : patterns.

Lemma walk_names_outcome path names :
  Forall (fun n => forall path st,
            walk_outcome pats path (files_of path n) (readable n) st
              (walk (scan_file pats) path n st)) names ->
  forall st,
    walk_outcome pats path
      (flat_map (fun child => files_of (Join path (node_name child)) child) names)
      (forallb readable names) st
      (walk_names (fun path child st => walk (scan_file pats) path child st)
         path names st).
Proof.
  induction 1 as [|child names Hchild _ IH]; intros st.
  { cbn. destruct st. by rewrite app_nil_r. }
  cbn [flat_map forallb walk_names].
  specialize (Hchild (Join path (node_name child)) st). unfold walk_outcome in *.
  destruct (readable child).
  - rewrite Hchild. cbn [andb]. specialize (IH
      {| foundIAMKeys := foldl (record_file pats) (foundIAMKeys st)
                           (files_of (Join path (node_name child)) child);
         reads := reads st ++ (files_of (Join path (node_name child)) child).*1 |}).
    cbn [foundIAMKeys reads] in IH.
    destruct (forallb readable names).
    + rewrite IH. by rewrite foldl_app, fmap_app, app_assoc.
    + destruct IH as (st' & e & l & -> & Hreads & Hpre).
      exists st', e, ((files_of (Join path (node_name child)) child).*1 ++ l).
      split; [done|]. split; [by rewrite Hreads, app_assoc|].
      rewrite fmap_app. by apply prefix_app.
  - cbn [andb]. destruct Hchild as (st' & e & l & -> & Hreads & Hpre).
    exists st', e, l. split; [done|]. split; [done|].
    rewrite fmap_app. by apply prefix_app_r.
Qed.

Lemma walk_outcome_node n :
  forall path st,
    walk_outcome pats path (files_of path n) (readable n) st
      (walk (scan_file pats) path n st).
Proof.
  induction n as [name data|name e|name names IH|name e] using node_nested_ind;
    intros path st; unfold walk_outcome.
  - cbn [walk scan_file IsDir ReadFile searchIAMKeysInFile files_of readable].
    destruct data as [content|e]; cbn [readable].
    + unfold record_file, searchIAMKeysInFile.
      cbn [foldl fst snd fmap list_fmap foundIAMKeys reads].
      destruct (Nat.ltb 0 (size (extract pats content))); done.
    + eexists _, _, [path]. split; [done|]. split; [done|]. done.
  - cbn [walk scan_file readable files_of]. eexists st, e, [].
    split; [done|]. split; [by rewrite app_nil_r|]. done.
  - cbn [walk scan_file IsDir readable files_of].
    apply (walk_names_outcome path names IH st).
  - cbn [walk scan_file readable files_of]. eexists st, e, [].
    split; [done|]. split; [by rewrite app_nil_r|]. done.
Qed.

(** The scan of a tree, in full. *)
Lemma scan_tree_outcome repoPath tree :
  if readable tree
  then scan_tree pats repoPath tree
       = ({| foundIAMKeys := foldl (record_file pats) ∅ (files_of repoPath tree);
             reads := (files_of repoPath tree).*1 |}, None)
  else exists st' e,
         scan_tree pats repoPath tree = (st', Some e)
         /\ reads st' `prefix_of` (files_of repoPath tree).*1.
Proof.
  pose proof (walk_outcome_node tree repoPath {| foundIAMKeys := ∅; reads := [] |}) as H.
  unfold walk_outcome, scan_tree, Walk in *. destruct (readable tree); [done|].
  destruct H as (st' & e & l & -> & Hreads & Hpre). exists st', e.
  split; [done|]. by rewrite Hreads.
Qed.
End ScanFacts.

(** ** The matcher returns only what the pattern denotes *)

Lemma strip_prefix_app p s t : strip_prefix p s = Some t -> s = p +:+ t.
Proof.
  revert s. induction p as [|a p IH]; intros s.
  - destruct s; cbn; by intros [= <-].
  - destruct s as [|b s]; cbn; [done|].
    destruct (Ascii.eqb_spec a b) as [->|]; [|done].
    intros H. rewrite string_app_cons. f_equal. by apply IH.
Qed.

Lemma strip_prefix_complete p t : strip_prefix p (p +:+ t) = Some t.
Proof.
  induction p as [|a p IH]; [by destruct t|].
  rewrite string_app_cons. cbn [strip_prefix]. by rewrite Ascii.eqb_refl.
Qed.

Lemma first_strip_app ps s t :
  first_strip ps s = Some t -> exists x, In x ps /\ s = x +:+ t.
Proof.
  induction ps as [|p ps IH]; [done|]. cbn [first_strip].
  destruct (strip_prefix p s) as [t'|] eqn:Hp.
  - intros [= <-]. exists p. split; [by left|]. by apply strip_prefix_app.
  - intros (x & Hin & ->)%IH. exists x. split; [by right|done].
Qed.

Lemma lit_fold_sound p s t :
  lit_fold p s = Some t -> exists u, s = u +:+ t /\ spelling p u.
Proof.
  revert s. induction p as [|a p IH]; intros s; cbn [lit_fold].
  - intros [= <-]. exists "". split; [done|constructor].
  - destruct (first_strip (fold_orbit a) s) as [t1|] eqn:Hfirst; [|done].
    apply first_strip_app in Hfirst as (x & Hin & ->).
    intros (u & -> & Hu)%IH. exists (x +:+ u).
    split; [by rewrite string_app_assoc|by constructor].
Qed.

Lemma lit_step_sound fold p s t :
  lit_step fold p s = Some t -> exists u, s = u +:+ t /\ lang (Lit fold p) u.
Proof.
  destruct fold; cbn [lit_step].
  - intros (u & -> & Hu)%lit_fold_sound. exists u. split; [done|by constructor].
  - intros ->%strip_prefix_app. exists p. split; [done|constructor].
Qed.

Lemma cls_step_sound c s t :
  cls_step c s = Some t -> exists u, s = u +:+ t /\ cls_rune c u.
Proof.
  destruct s as [|a s]; [done|]. cbn [cls_step].
  destruct (cc_byte c a) eqn:Hbyte.
  - intros [= <-]. exists (String a ""). split; [done|by constructor].
  - destruct (cc_folded c) eqn:Hfold; [|done].
    intros (x & [<-|[<-|[]]] & Hs)%first_strip_app.
    + exists long_s. split; [done|by constructor].
    + exists kelvin. split; [done|by constructor].
Qed.

Lemma plus_loop_sound {R : Type} c (k : string -> option R) n s x :
  plus_loop n c s k = Some x ->
  exists u t, s = u +:+ t /\ lang (Plus c) u /\ k t = Some x.
Proof.
  revert s. induction n as [|n IH]; intros s; cbn [plus_loop]; [done|].
  destruct (cls_step c s) as [t1|] eqn:Hstep; [|done].
  apply cls_step_sound in Hstep as (u1 & -> & Hu1).
  destruct (plus_loop n c t1 k) as [y|] eqn:Hmore.
  - intros [= ->]. apply IH in Hmore as (u & t & -> & Hu & Hk).
    exists (u1 +:+ u), t. split; [by rewrite string_app_assoc|].
    split; [by apply lang_plus_more|done].
  - intros Hk. exists u1, t1. split; [done|]. split; [by apply lang_plus_one|done].
Qed.

(** The matcher is sound: when [rmatch] succeeds, the text it has taken
    from the input is one the pattern denotes, and the groups that do not
    occur in the pattern keep their submatches. *)
Lemma rmatch_sound {R : Type} r :
  forall s cs (k : string -> captures -> option R) x,
    rmatch r s cs k = Some x ->
    exists u t cs',
      s = u +:+ t /\ lang r u /\ k t cs' = Some x
      /\ forall i, ~ In i (groups r) -> capture cs' i = capture cs i.
Proof.
  induction r as [fold p|c|c|c|r1 IH1 r2 IH2|r1 IH1 r2 IH2|i r IH];
    intros s cs k x; cbn [rmatch groups].
  - destruct (lit_step fold p s) as [t|] eqn:Hstep; [|done].
    apply lit_step_sound in Hstep as (u & -> & Hu). intros Hk.
    by exists u, t, cs.
  - destruct (cls_step c s) as [t|] eqn:Hstep; [|done].
    apply cls_step_sound in Hstep as (u & -> & Hu). intros Hk.
    exists u, t, cs. repeat split; [by constructor|done].
  - destruct (cls_step c s) as [t|] eqn:Hstep.
    + apply cls_step_sound in Hstep as (u & -> & Hu).
      destruct (k t cs) as [y|] eqn:Hk.
      * intros [= ->]. exists u, t, cs. repeat split; [by apply lang_opt_some|done].
      * intros Hk'. exists "", (u +:+ t), cs. repeat split; [constructor|done].
    + intros Hk'. exists "", s, cs. repeat split; [constructor|done].
  - intros (u & t & -> & Hu & Hk)%plus_loop_sound. by exists u, t, cs.
  - intros (u1 & t1 & cs1 & -> & Hu1 & Hk1 & Hcs1)%IH1.
    apply IH2 in Hk1 as (u2 & t2 & cs2 & -> & Hu2 & Hk2 & Hcs2).
    exists (u1 +:+ u2), t2, cs2. split; [by rewrite string_app_assoc|].
    split; [by constructor|]. split; [done|].
    intros i Hi. rewrite Hcs2, Hcs1; [done|..]; intros ?; apply Hi, in_or_app; auto.
  - destruct (rmatch r1 s cs k) as [y|] eqn:H1.
    + intros [= ->]. apply IH1 in H1 as (u & t & cs' & -> & Hu & Hk & Hcs).
      exists u, t, cs'. split; [done|]. split; [by apply lang_alt_l|]. split; [done|].
      intros i Hi. apply Hcs. intros ?. apply Hi, in_or_app. auto.
    + intros (u & t & cs' & -> & Hu & Hk & Hcs)%IH2.
      exists u, t, cs'. split; [done|]. split; [by apply lang_alt_r|]. split; [done|].
      intros j Hj. apply Hcs. intros ?. apply Hj, in_or_app. auto.
  - intros (u & t & cs' & -> & Hu & Hk & Hcs)%IH.
    exists u, t, ((i, consumed (u +:+ t) t) :: cs').
    split; [done|]. split; [by constructor|]. split; [done|].
    intros j Hj. cbn [capture]. destruct (Nat.eqb_spec j i) as [->|Hne].
    + exfalso. apply Hj. by left.
    + apply Hcs. intros ?. apply Hj. by right.
Qed.

(** The submatch of a group is the text its pattern has taken. *)
Lemma rmatch_cap {R : Type} i r s cs (k : string -> captures -> option R) x :
  rmatch (Cap i r) s cs k = Some x ->
  exists u t cs',
    s = u +:+ t /\ lang r u /\ k t cs' = Some x /\ capture cs' i = u.
Proof.
  cbn [rmatch]. intros (u & t & cs' & -> & Hu & Hk & _)%rmatch_sound.
  exists u, t, ((i, consumed (u +:+ t) t) :: cs'). split; [done|]. split; [done|].
  split; [done|]. cbn [capture]. rewrite Nat.eqb_refl. apply consumed_app.
Qed.

(** Each match of [find_all] is a match at some place of the input. *)
Lemma find_all_In re s skip (m : list string) :
  In m (find_all re s skip) ->
  exists before rest len,
    s = before +:+ rest /\ match_at re rest = Some (m, S len).
Proof.
  revert skip. induction s as [|a t IH]; intros skip; cbn [find_all]; [done|].
  assert (forall skip', In m (find_all re t skip') ->
            exists before rest len,
              String a t = before +:+ rest /\ match_at re rest = Some (m, S len)) as Hlater.
  { intros skip' (before & rest & len & -> & Hm)%IH.
    by exists (String a before), rest, len. }
  destruct skip as [|skip']; [|apply Hlater].
  destruct (match_at re (String a t)) as [[m' [|len']]|] eqn:Hm;
    [apply Hlater| |apply Hlater].
  intros [<-|Hin]; [|by apply (Hlater len')].
  by exists "", (String a t), len'.
Qed.

(** A greedy run before a continuation that cannot fail stops only where
    no further rune of the class follows. *)
Lemma plus_loop_none {R : Type} c (k : string -> option R) n s :
  (forall t, is_Some (k t)) -> String.length s <= n ->
  plus_loop n c s k = None -> cls_step c s = None.
Proof.
  intros Hk Hlen. destruct n as [|n]; cbn [plus_loop].
  - destruct s; [done|]. cbn in Hlen. lia.
  - destruct (cls_step c s) as [t|]; [|done].
    destruct (plus_loop n c t k); [done|]. intros Hnone.
    destruct (Hk t) as [y Hy]. congruence.
Qed.

Lemma plus_loop_greedy {R : Type} c (k : string -> option R) n s x :
  (forall t, is_Some (k t)) -> String.length s <= n ->
  plus_loop n c s k = Some x ->
  exists u t, s = u +:+ t /\ lang (Plus c) u /\ k t = Some x /\ cls_step c t = None.
Proof.
  intros Hk. revert s. induction n as [|n IH]; intros s Hlen; cbn [plus_loop]; [done|].
  destruct (cls_step c s) as [t1|] eqn:Hstep; [|done].
  pose proof (cls_step_shorter _ _ _ Hstep) as Hshort.
  apply cls_step_sound in Hstep as (u1 & -> & Hu1).
  destruct (plus_loop n c t1 k) as [y|] eqn:Hmore.
  - intros [= ->]. apply IH in Hmore as (u & t & -> & Hu & Hkt & Hend); [|lia].
    exists (u1 +:+ u), t. split; [by rewrite string_app_assoc|].
    split; [by apply lang_plus_more|done].
  - intros Hkt. apply plus_loop_none in Hmore; [|done|lia].
    exists u1, t1. split; [done|]. split; [by apply lang_plus_one|done].
Qed.

(** A match of a pattern of the shape literal, then one group holding a
    run of a class (the shape of both patterns of src/main.go). *)
Lemma match_at_assignment fold p c s (m : list string) len :
  match_at (Cat (Lit fold p) (Cap 1 (Plus c))) s = Some (m, len) ->
  exists name value rest,
    s = name +:+ value +:+ rest
    /\ lang (Lit fold p) name /\ lang (Plus c) value /\ cls_step c rest = None
    /\ m = [name +:+ value; value]
    /\ len = String.length (name +:+ value).
Proof.
  unfold match_at. cbn [rmatch ngroups].
  destruct (lit_step fold p s) as [t1|] eqn:Hlit; [|done].
  apply lit_step_sound in Hlit as (name & -> & Hname).
  destruct (plus_loop _ c t1 _) as [[t cs]|] eqn:Hrun; [|done].
  apply plus_loop_greedy in Hrun as (value & rest & -> & Hvalue & [= <- <-] & Hend);
    [|by eauto|done].
  intros [= <- <-]. exists name, value, rest. split; [done|]. split; [done|].
  split; [done|]. split; [done|].
  rewrite <- string_app_assoc, consumed_app.
  cbn [Nat.max seq map capture Nat.eqb]. rewrite consumed_app. split; [done|].
  rewrite !string_app_length. lia.
Qed.

Lemma all_bytes_app p (u v : string) :
  all_bytes p (u +:+ v) = all_bytes p u && all_bytes p v.
Proof.
  induction u as [|a u IH]; [done|].
  rewrite string_app_cons. cbn [all_bytes]. by rewrite IH, andb_assoc.
Qed.

(** A run of a class without folded runes is a non-empty text of bytes of
    the class. *)
Lemma run_bytes c u :
  cc_folded c = false -> lang (Plus c) u -> u <> "" /\ all_bytes (cc_byte c) u = true.
Proof.
  intros Hfold Hu. remember (Plus c) as r eqn:Hr.
  assert (forall x, cls_rune c x -> x <> "" /\ all_bytes (cc_byte c) x = true) as Hrune.
  { intros x [a Ha| |]; try congruence. cbn. by rewrite Ha. }
  induction Hu as [| | | | |c' u Hrn|c' u v Hrn _ IH| | | |]; try done;
    injection Hr as ->.
  - by apply Hrune.
  - destruct (Hrune _ Hrn) as [Hne Hall]. destruct (IH eq_refl) as [_ Hall'].
    split; [by destruct u|]. by rewrite all_bytes_app, Hall, Hall'.
Qed.

Lemma spelling_same_orbits p q u :
  same_orbits p q = true -> spelling p u -> spelling q u.
Proof.
  intros Hpq Hu. revert q Hpq.
  induction Hu as [|a p x u Hx _ IH]; intros [|b q]; cbn [same_orbits]; try done.
  - constructor.
  - intros [Hab Hrest]%andb_prop. apply bool_decide_eq_true in Hab.
    constructor; [by rewrite <- Hab|by apply IH].
Qed.

(** A match of a pattern whose first part is group 1: the first submatch
    is a text the group denotes. *)
Lemma match_at_first_group r1 r2 s (m : list string) len :
  ~ In 1 (groups r2) ->
  match_at (Cat (Cap 1 r1) r2) s = Some (m, len) ->
  lang r1 (idx m 1).
Proof.
  intros Hgroups. unfold match_at.
  destruct (rmatch _ s [] _) as [[t cs]|] eqn:Hmatch; [|done].
  cbn [rmatch] in Hmatch.
  change (rmatch r1 s [] ?k = Some (t, cs)) with
    (rmatch (Cap 1 r1) s [] (fun t cs' => rmatch r2 t cs' (fun t cs => Some (t, cs)))
     = Some (t, cs)) in Hmatch.
  apply rmatch_cap in Hmatch as (u & t1 & cs1 & -> & Hu & Hrest & Hcap).
  apply rmatch_sound in Hrest as (u2 & t2 & cs2 & -> & _ & [= <- <-] & Hkeep).
  intros [= <- <-]. unfold idx. cbn [ngroups nth].
  destruct (Nat.max (Nat.max 1 (ngroups r1)) (ngroups r2)) as [|n] eqn:Hn; [lia|].
  cbn [seq map nth]. by rewrite Hkeep, Hcap.
Qed.

(** ** searchIAMKeysInFile: the keys come from the content *)

Lemma find_all_assignment fold p c content (m : list string) :
  In m (FindAllStringSubmatch (Cat (Lit fold p) (Cap 1 (Plus c))) content) ->
  assigned_in content fold p c (idx m 1).
Proof.
  intros (before & rest & len & -> & Hm)%find_all_In.
  apply match_at_assignment in Hm as (name & value & rest' & -> & Hname & Hvalue & Hend
                                      & -> & _).
  by exists before, name, rest'.
Qed.

(** An entry of the map comes from an identifier match and from the last
    secret match. *)
Lemma extract_entry pats content id secret :
  extract pats content !! id = Some secret ->
  exists (m m' : list string),
    In m (FindAllStringSubmatch (pat_accessKeyID pats) content) /\ idx m 1 = id
    /\ In m' (FindAllStringSubmatch (pat_secretAccessKey pats) content)
    /\ idx m' 1 = secret.
Proof.
  rewrite extract_lookup. case_decide as Hin; [|done].
  apply list_elem_of_In, in_map_iff in Hin as (m & <- & Hm).
  destruct (last _) as [m'|] eqn:Hlast; [|done]. intros [= <-].
  exists m, m'. split; [done|]. split; [done|]. split; [|done].
  by apply list_elem_of_In, last_Some_elem_of.
Qed.

(** X5.  Every pair that [searchIAMKeysInFile] of src/main.go returns is
    in the file: the identifier is a non-empty run of upper-case letters
    and digits that stands in the content right after the literal
    AWS_ACCESS_KEY_ID= and cannot be made longer, and the secret is a
    non-empty run of bytes other than white space that stands right
    after AWS_SECRET_ACCESS_KEY= written in any letter case. *)
Theorem main_extract_sound content id secret :
  extract Main.pats content !! id = Some secret ->
  assigned_in content false "AWS_ACCESS_KEY_ID=" cc_upper_digit id
  /\ assigned_in content true "AWS_SECRET_ACCESS_KEY=" cc_non_space secret
  /\ id <> "" /\ all_bytes (fun a => is_upper a || is_digit a) id = true
  /\ secret <> "" /\ all_bytes (fun a => negb (is_space a)) secret = true.
Proof.
  intros (m & m' & Hm & <- & Hm' & <-)%extract_entry.
  apply find_all_assignment in Hm, Hm'.
  split; [done|]. split; [done|].
  destruct Hm as (_ & _ & _ & _ & _ & Hid & _).
  destruct Hm' as (_ & _ & _ & _ & _ & Hsecret & _).
  apply run_bytes in Hid as [? ?]; [|done].
  apply run_bytes in Hsecret as [? ?]; [|done]. done.
Qed.

Lemma main_extract_sound_witness :
  assigned_in Examples.scenario false "AWS_ACCESS_KEY_ID=" cc_upper_digit
    "AKIA1234567890ABCD12"
  /\ assigned_in Examples.scenario true "AWS_SECRET_ACCESS_KEY=" cc_non_space
       "abcDEF1234567890+/=="
  /\ "AKIA1234567890ABCD12" <> ""
  /\ all_bytes (fun a => is_upper a || is_digit a) "AKIA1234567890ABCD12" = true
  /\ "abcDEF1234567890+/==" <> ""
  /\ all_bytes (fun a => negb (is_space a)) "abcDEF1234567890+/==" = true.
Proof.
  apply (main_extract_sound Examples.scenario). vm_compute. reflexivity.
Defined.

(** X6.  Whatever the file holds, every pair that [searchIAMKeysInFile]
    of src/unnamed/part_000 returns is made of names, not of values: the
    identifier is a spelling (in some letter case) of AWS_ACCESS_KEY_ID
    and the secret a spelling of AWS_SECRET_ACCESS_KEY. *)
Theorem part000_extract_names content id secret :
  extract Part000.pats content !! id = Some secret ->
  spelling "AWS_ACCESS_KEY_ID" id /\ spelling "AWS_SECRET_ACCESS_KEY" secret.
Proof.
  intros (m & m' & Hm & <- & Hm' & <-)%extract_entry.
  apply find_all_In in Hm as (? & rest & len & _ & Hm).
  apply find_all_In in Hm' as (? & rest' & len' & _ & Hm').
  apply match_at_first_group in Hm; [|cbn; intros [[=]|[]]].
  apply match_at_first_group in Hm'; [|cbn; intros [[=]|[]]].
  split.
  - inversion Hm as [| | | | | | | |? ? ? Hl|? ? ? Hr|]; subst.
    + by inversion Hl.
    + inversion Hr; subst. by eapply spelling_same_orbits; [|eassumption].
  - inversion Hm' as [| | | | | | | |? ? ? Hl|? ? ? Hr|]; subst.
    + by inversion Hl.
    + inversion Hr; subst. by eapply spelling_same_orbits; [|eassumption].
Qed.

Lemma part000_extract_names_witness :
  spelling "AWS_ACCESS_KEY_ID" "AWS_ACCESS_KEY_ID"
  /\ spelling "AWS_SECRET_ACCESS_KEY" "AWS_SECRET_ACCESS_KEY".
Proof.
  apply (part000_extract_names Examples.scenario). vm_compute. reflexivity.
Defined.

(** ** searchIAMKeysInRepo: success, reads and records *)

Lemma record_files_lookup pats files (found : gmap string (gmap string string))
    path keys :
  foldl (record_file pats) found files !! path = Some keys ->
  found !! path = Some keys
  \/ exists content,
       In (path, Ok content) files /\ keys = extract pats content /\ 0 < size keys.
Proof.
  revert found. induction files as [|[p data] files IH]; intros found; [by left|].
  cbn [foldl]. intros [Hfound|(content & Hin & Hkeys)]%IH.
  - unfold record_file in Hfound. cbn [fst snd] in Hfound.
    destruct data as [content|e]; [|by left].
    destruct (Nat.ltb_spec 0 (size (extract pats content))) as [Hpos|_]; [|by left].
    destruct (decide (p = path)) as [->|Hne].
    + rewrite lookup_insert_eq in Hfound. injection Hfound as <-.
      right. exists content. split; [by left|done].
    + rewrite lookup_insert_ne in Hfound by done. by left.
  - right. exists content. split; [by right|done].
Qed.

Lemma record_files_keeps pats files (found : gmap string (gmap string string)) path :
  is_Some (found !! path) -> is_Some (foldl (record_file pats) found files !! path).
Proof.
  revert found. induction files as [|[p data] files IH]; intros found Hsome; [done|].
  cbn [foldl]. apply IH. unfold record_file. cbn [fst snd].
  destruct data as [content|e]; [|done].
  destruct (Nat.ltb 0 (size (extract pats content))); [|done].
  destruct (decide (p = path)) as [->|Hne].
  - rewrite lookup_insert_eq. eauto.
  - by rewrite lookup_insert_ne.
Qed.

Lemma record_files_complete pats files (found : gmap string (gmap string string))
    path content :
  In (path, Ok content) files -> 0 < size (extract pats content) ->
  is_Some (foldl (record_file pats) found files !! path).
Proof.
  revert found. induction files as [|[p data] files IH]; intros found; [done|].
  intros [[= -> ->]|Hin] Hpos; cbn [foldl]; [|by apply IH].
  apply record_files_keeps. unfold record_file. cbn [fst snd].
  apply Nat.ltb_lt in Hpos as ->. rewrite lookup_insert_eq. eauto.
Qed.

(** X2.  [searchIAMKeysInRepo] succeeds exactly on the trees Walk can go
    through in full: every node can be stat'ed, every directory listed
    and every file read; any one failure makes the whole scan fail. *)
Theorem search_succeeds_iff_readable pats repoPath tree :
  (exists found, searchIAMKeysInRepo pats repoPath tree = Ok found)
  <-> readable tree = true.
Proof.
  unfold searchIAMKeysInRepo. pose proof (scan_tree_outcome pats repoPath tree) as H.
  destruct (readable tree).
  - rewrite H. split; [done|]. eauto.
  - destruct H as (st' & e & -> & _). split; [by intros [? [=]]|done].
Qed.

(** X3.  The files a scan reads are the files among the nodes of the
    tree, in the order of the walk, each once and no directory, up to
    the first node at which the walk fails (a node that cannot be
    stat'ed, a directory that cannot be listed, or a file that cannot be
    read, which is itself the last file read): all of them when the scan
    succeeds, and in any case a prefix of the files of the tree. *)
Theorem files_read_in_walk_order pats repoPath tree :
  files_read pats repoPath tree = file_paths (up_to_failure (nodes_of repoPath tree))
  /\ files_read pats repoPath tree `prefix_of` (files_of repoPath tree).*1
  /\ (readable tree = true ->
      files_read pats repoPath tree = (files_of repoPath tree).*1).
Proof.
  split; [apply scan_tree_reads|].
  unfold files_read. pose proof (scan_tree_outcome pats repoPath tree) as H.
  destruct (readable tree).
  - rewrite H. cbn [fst reads]. done.
  - destruct H as (st' & e & -> & Hpre). cbn [fst]. split; [done|]. done.
Qed.

(** X4.  What a successful scan records: every entry of the map is the
    non-empty set of keys extracted from the content of a file at that
    path, and every file whose content gives at least one key has an
    entry; files without keys get none of their own. *)
Theorem search_records_files_with_keys pats repoPath tree found :
  searchIAMKeysInRepo pats repoPath tree = Ok found ->
  (forall path keys,
      found !! path = Some keys ->
      0 < size keys
      /\ exists content,
           In (path, Ok content) (files_of repoPath tree)
           /\ keys = extract pats content)
  /\ (forall path content,
        In (path, Ok content) (files_of repoPath tree) ->
        0 < size (extract pats content) ->
        is_Some (found !! path)).
Proof.
  unfold searchIAMKeysInRepo. pose proof (scan_tree_outcome pats repoPath tree) as H.
  destruct (readable tree).
  - rewrite H. intros [= <-]. cbn [foundIAMKeys]. split.
    + intros path keys [Hempty|(content & Hin & -> & Hpos)]%record_files_lookup.
      * by rewrite lookup_empty in Hempty.
      * split; [done|]. by exists content.
    + intros path content Hin Hpos. by eapply record_files_complete.
  - by destruct H as (st' & e & -> & _).
Qed.

Lemma search_records_files_with_keys_witness :
  (forall path keys,
      ({[ "/tmp/repo-clone-1/config.env" :=
            ({[ "AKIA1234567890ABCD12" := "abcDEF1234567890+/==" ]}
               : gmap string string) ]}
         : gmap string (gmap string string)) !! path = Some keys ->
      0 < size keys
      /\ exists content,
           In (path, Ok content)
              (files_of "/tmp/repo-clone-1" (tree_of Examples.two_commits "c1"))
           /\ keys = extract Main.pats content)
  /\ (forall path content,
        In (path, Ok content)
           (files_of "/tmp/repo-clone-1" (tree_of Examples.two_commits "c1")) ->
        0 < size (extract Main.pats content) ->
        is_Some (({[ "/tmp/repo-clone-1/config.env" :=
                       ({[ "AKIA1234567890ABCD12" := "abcDEF1234567890+/==" ]}
                          : gmap string string) ]}
                    : gmap string (gmap string string)) !! path)).
Proof.
  apply (search_records_files_with_keys Main.pats "/tmp/repo-clone-1"
           (tree_of Examples.two_commits "c1")).
  vm_compute. reflexivity.
Defined.

(** ** Runs of src/main.go, further *)

Section MainLoop.
Variable range_order : range_fn.
Variable w : World.
Variable repoPath : string.

Lemma scan_commit_ok_iff i commitHash wt :
  (exists events wt' valid,
     Main.scan_commit range_order w repoPath i commitHash wt = (events, wt', Ok valid))
  <-> commit_scans w repoPath commitHash.
Proof.
  unfold Main.scan_commit, commit_scans.
  pose proof (search_succeeds_iff_readable Main.pats repoPath (tree_of w commitHash))
    as Hsearch.
  destruct (checkoutCommit w repoPath commitHash) as [e|].
  { split; [by intros (? & ? & ? & [=])|by intros [[=] _]]. }
  cbn [checked_out wt_root wt_rev].
  destruct (searchIAMKeysInRepo Main.pats repoPath (tree_of w commitHash)) as [found|e].
  - split; [|by eauto]. intros _. split; [done|]. apply Hsearch. eauto.
  - split; [by intros (? & ? & ? & [=])|]. intros [_ Hread].
    apply Hsearch in Hread as [? [=]].
Qed.

Lemma scan_commits_ok_iff commitHashes i wt validKeysFound :
  (exists events valid,
     Main.scan_commits range_order w repoPath commitHashes i wt validKeysFound
     = (events, Ok valid))
  <-> Forall (commit_scans w repoPath) commitHashes.
Proof.
  revert i wt validKeysFound.
  induction commitHashes as [|h rest IH]; intros i wt validKeysFound.
  { cbn. split; [constructor|eauto]. }
  cbn [Main.scan_commits]. rewrite Forall_cons, <- (scan_commit_ok_iff i h wt).
  destruct (Main.scan_commit range_order w repoPath i h wt)
    as [[events wt'] [valid|msg]].
  - specialize (IH (S i) wt' (validKeysFound || valid)).
    destruct (Main.scan_commits _ _ _ rest _ _ _) as [events' [valid'|msg']].
    + split; [|by eauto]. intros _. split; [by eauto|]. apply IH. eauto.
    + split; [by intros (? & ? & [=])|]. intros [_ Hrest].
      apply IH in Hrest as (? & ? & [=]).
  - split; [by intros (? & ? & [=])|]. by intros [(? & ? & ? & [=]) _].
Qed.

Lemma checkouts_app t1 t2 : checkouts (t1 ++ t2) = checkouts t1 ++ checkouts t2.
Proof. apply flat_map_app. Qed.

Lemma scan_commit_checkouts i commitHash wt :
  checkouts (Main.scan_commit range_order w repoPath i commitHash wt).1.1
  = [(i, commitHash)].
Proof.
  destruct (scan_commit_shape range_order w repoPath i commitHash wt)
    as (paths & vals & -> & Hvals & _).
  change (EvCheckout i commitHash :: ?t) with ([EvCheckout i commitHash] ++ t).
  rewrite !checkouts_app.
  replace (checkouts (map (fun path => EvRead i path (Some i)) paths))
    with (@nil (nat * string)) by (by induction paths).
  replace (checkouts vals) with (@nil (nat * string)); [done|].
  induction Hvals as [|e vals He _ IH]; [done|].
  destruct e; try done; exact IH.
Qed.

Lemma scan_commits_checkouts commitHashes i wt validKeysFound :
  exists k,
    k <= length commitHashes
    /\ checkouts (Main.scan_commits range_order w repoPath commitHashes i wt
                    validKeysFound).1
       = zip (seq i k) (take k commitHashes)
    /\ match (Main.scan_commits range_order w repoPath commitHashes i wt
                validKeysFound).2 with
       | Ok _ => k = length commitHashes
       | Err _ => 0 < k
       end.
Proof.
  revert i wt validKeysFound.
  induction commitHashes as [|h rest IH]; intros i wt validKeysFound.
  { exists 0. by cbn. }
  cbn [Main.scan_commits].
  pose proof (scan_commit_checkouts i h wt) as Hround.
  destruct (Main.scan_commit range_order w repoPath i h wt)
    as [[events wt'] [valid|msg]]; cbn [fst] in Hround.
  - destruct (IH (S i) wt' (validKeysFound || valid)) as (k & Hk & Hco & Hres).
    destruct (Main.scan_commits _ _ _ rest _ _ _) as [events' r]. cbn [fst snd] in *.
    exists (S k). split; [cbn; lia|]. split.
    + by rewrite checkouts_app, Hround, Hco.
    + destruct r; cbn; lia.
  - exists 1. cbn [fst snd length]. split; [lia|]. split; [|lia].
    by rewrite Hround.
Qed.
End MainLoop.

(** X8.  A run of src/main.go comes to its end without a fatal error
    exactly when the flag is not empty, the clone and the enumeration
    succeed, and for every commit of the list the checkout succeeds and
    the whole tree can be walked and read. *)
Theorem main_done_iff range_order w repoURL :
  (exists events, Main.main range_order w repoURL = (events, Done))
  <-> String.eqb repoURL "" = false
      /\ exists repoPath commitHashes,
           cloneRepo w repoURL = Ok repoPath
           /\ getCommitHashes w repoPath = Ok commitHashes
           /\ Forall (commit_scans w repoPath) commitHashes.
Proof.
  unfold Main.main. destruct (String.eqb repoURL "").
  { split; [by intros [? [=]]|by intros [[=] _]]. }
  destruct (cloneRepo w repoURL) as [repoPath|e].
  2: { split; [by intros [? [=]]|by intros [_ (? & ? & [=] & _)]]. }
  destruct (getCommitHashes w repoPath) as [commitHashes|e] eqn:Hlog.
  2: { split; [by intros [? [=]]|]. intros [_ (? & ? & [= <-] & Hlog' & _)]. congruence. }
  pose proof (scan_commits_ok_iff range_order w repoPath commitHashes 0 (cloned w) false)
    as Hloop.
  destruct (Main.scan_commits _ _ _ _ _ _ _) as [events [valid|msg]].
  - split; [|by eauto]. intros _. split; [done|].
    exists repoPath, commitHashes. split; [done|]. split; [done|]. apply Hloop. eauto.
  - split; [by intros [? [=]]|]. intros [_ (? & ? & [= <-] & Hlog' & Hall)].
    rewrite Hlog in Hlog'. injection Hlog' as <-. apply Hloop in Hall as (? & ? & [=]).
Qed.

(** X9.  src/main.go checks the commits out in the order of the list,
    each once, from the first one on: all of them when the run comes to
    its end, and those up to the failing one (at least one) when the run
    is aborted in the loop. *)
Theorem main_checkouts_in_order range_order w repoURL repoPath commitHashes :
  String.eqb repoURL "" = false ->
  cloneRepo w repoURL = Ok repoPath ->
  getCommitHashes w repoPath = Ok commitHashes ->
  exists k,
    k <= length commitHashes
    /\ checkouts (Main.main range_order w repoURL).1
       = zip (seq 0 k) (take k commitHashes)
    /\ match (Main.main range_order w repoURL).2 with
       | Done => k = length commitHashes
       | Fatal _ => 0 < k
       end.
Proof.
  intros Hurl Hclone Hlog. rewrite (main_run _ _ _ _ _ Hurl Hclone Hlog).
  destruct (scan_commits_checkouts range_order w repoPath commitHashes 0 (cloned w) false)
    as (k & Hk & Hco & Hres).
  destruct (Main.scan_commits _ _ _ _ _ _ _) as [events [valid|msg]]; cbn [fst snd] in *;
    exists k; split; try done; split; try done.
  rewrite checkouts_app, Hco. destruct valid; cbn; by rewrite app_nil_r.
Qed.

Lemma main_checkouts_in_order_witness :
  exists k,
    k <= length ["c1"; "c2"]
    /\ checkouts (Main.main Examples.in_map_order Examples.first_checkout_fails
                    Examples.url).1
       = zip (seq 0 k) (take k ["c1"; "c2"])
    /\ match (Main.main Examples.in_map_order Examples.first_checkout_fails
                Examples.url).2 with
       | Done => k = length ["c1"; "c2"]
       | Fatal _ => 0 < k
       end.
Proof.
  apply (main_checkouts_in_order Examples.in_map_order Examples.first_checkout_fails
           Examples.url "/tmp/repo-clone-1" ["c1"; "c2"]); vm_compute; reflexivity.
Defined.

(** ** Where the validated keys come from *)

Section Provenance.
Variable range_order : range_fn.
Hypothesis range_once :
  forall (A : Type) (m : gmap string A), range_order A m ≡ₚ map_to_list m.

Lemma range_entry {A} (m : gmap string A) k v :
  In (k, v) (range_order A m) -> m !! k = Some v.
Proof.
  intros Hin%list_elem_of_In. rewrite (range_once A m) in Hin.
  by apply elem_of_map_to_list.
Qed.

Lemma keys_in_order_In found path id secret :
  In (path, id, secret) (keys_in_order range_order found) ->
  exists keys, found !! path = Some keys /\ keys !! id = Some secret.
Proof.
  unfold keys_in_order. intros ([p keys] & Hentry & Hin)%in_flat_map.
  apply in_map_iff in Hin as ([k v] & [= -> -> ->] & Hkv).
  exists keys. split; by apply range_entry.
Qed.

Lemma validate_keys_In w i commitHash keys j path id secret :
  In (EvValidate j path id secret) (flat_map (Main.validate_key w i commitHash) keys) ->
  j = i /\ In (path, id, secret) keys.
Proof.
  intros ([[p k] v] & Hkey & Hin)%in_flat_map. unfold Main.validate_key in Hin.
  destruct Hin as [[= -> -> -> ->]|Hin]; [done|].
  destruct (Main.validateIAMKey w k v); [|done]. by destruct Hin as [[=]|[]].
Qed.

Lemma scan_commits_validated w repoPath earlier commitHashes wt validKeysFound
    j path id secret :
  In (EvValidate j path id secret)
     (Main.scan_commits range_order w repoPath commitHashes (length earlier) wt
        validKeysFound).1 ->
  exists commitHash found keys,
    (earlier ++ commitHashes) !! j = Some commitHash
    /\ searchIAMKeysInRepo Main.pats repoPath (tree_of w commitHash) = Ok found
    /\ found !! path = Some keys /\ keys !! id = Some secret.
Proof.
  revert earlier wt validKeysFound.
  induction commitHashes as [|h rest IH]; intros earlier wt validKeysFound; [done|].
  cbn [Main.scan_commits].
  assert (In (EvValidate j path id secret)
             (Main.scan_commit range_order w repoPath (length earlier) h wt).1.1 ->
          exists found keys,
            j = length earlier
            /\ searchIAMKeysInRepo Main.pats repoPath (tree_of w h) = Ok found
            /\ found !! path = Some keys /\ keys !! id = Some secret) as Hround.
  { unfold Main.scan_commit. destruct (checkoutCommit w repoPath h).
    { by intros [[=]|[]]. }
    cbn [checked_out wt_root wt_rev].
    destruct (searchIAMKeysInRepo Main.pats repoPath (tree_of w h)) as [found|e];
      cbn [fst]; intros [[=]|Hin].
    - apply in_app_or in Hin as [Hin|Hin].
      { by apply in_map_iff in Hin as (? & [=] & _). }
      apply validate_keys_In in Hin as [-> Hin].
      apply keys_in_order_In in Hin as (keys & Hpath & Hid). by exists found, keys.
    - by apply in_map_iff in Hin as (? & [=] & _). }
  assert ((earlier ++ h :: rest) !! length earlier = Some h) as Hhere
    by apply list_lookup_middle, eq_refl.
  destruct (Main.scan_commit range_order w repoPath (length earlier) h wt)
    as [[events wt'] [valid|msg]]; cbn [fst] in Hround.
  - specialize (IH (earlier ++ [h]) wt' (validKeysFound || valid)).
    rewrite length_app, Nat.add_1_r, <- app_assoc in IH. cbn [app] in IH.
    destruct (Main.scan_commits _ _ _ rest _ _ _) as [events' r]. cbn [fst] in *.
    intros [Hin|Hin]%in_app_or; [|by apply IH].
    apply Hround in Hin as (found & keys & -> & ?). by exists h, found, keys.
  - cbn [fst]. intros Hin.
    apply Hround in Hin as (found & keys & -> & ?). by exists h, found, keys.
Qed.
End Provenance.

(** X10.  src/main.go validates only what it has found: every pair
    handed to [validateIAMKey] for a commit and a path was extracted, as
    the entry of that identifier, from the content of a file at that path
    in the tree of that commit. *)
Theorem validated_keys_were_found range_order w repoURL i path id secret :
  (forall (A : Type) (m : gmap string A), range_order A m ≡ₚ map_to_list m) ->
  In (EvValidate i path id secret) (Main.main range_order w repoURL).1 ->
  exists repoPath commitHashes commitHash content,
    cloneRepo w repoURL = Ok repoPath
    /\ getCommitHashes w repoPath = Ok commitHashes
    /\ commitHashes !! i = Some commitHash
    /\ In (path, Ok content) (files_of repoPath (tree_of w commitHash))
    /\ extract Main.pats content !! id = Some secret.
Proof.
  intros Honce. unfold Main.main. destruct (String.eqb repoURL ""); [done|].
  destruct (cloneRepo w repoURL) as [repoPath|]; [|done].
  destruct (getCommitHashes w repoPath) as [commitHashes|] eqn:Hlog; [|done].
  pose proof (scan_commits_validated range_order Honce w repoPath [] commitHashes
                (cloned w) false i path id secret) as Hloop.
  cbn [length app] in Hloop.
  destruct (Main.scan_commits _ _ _ _ _ _ _) as [events [valid|msg]]; cbn [fst] in *.
  - intros [Hin|Hin]%in_app_or.
    + apply Hloop in Hin as (h & found & keys & Hh & Hsearch & Hpath & Hid).
      apply search_records_files_with_keys in Hsearch as [Hsound _].
      apply Hsound in Hpath as (_ & content & Hfile & ->).
      by exists repoPath, commitHashes, h, content.
    + destruct valid; [done|]. by destruct Hin as [[=]|[]].
  - intros Hin.
    apply Hloop in Hin as (h & found & keys & Hh & Hsearch & Hpath & Hid).
    apply search_records_files_with_keys in Hsearch as [Hsound _].
    apply Hsound in Hpath as (_ & content & Hfile & ->).
    by exists repoPath, commitHashes, h, content.
Qed.

Lemma validated_keys_were_found_witness :
  exists repoPath commitHashes commitHash content,
    cloneRepo Examples.two_commits Examples.url = Ok repoPath
    /\ getCommitHashes Examples.two_commits repoPath = Ok commitHashes
    /\ commitHashes !! 1 = Some commitHash
    /\ In ("/tmp/repo-clone-1/config.env", Ok content)
          (files_of repoPath (tree_of Examples.two_commits commitHash))
    /\ extract Main.pats content !! "AKIA1234567890ABCD12" = Some "abcDEF1234567890+/==".
Proof.
  apply (validated_keys_were_found Examples.in_map_order Examples.two_commits
           Examples.url 1 "/tmp/repo-clone-1/config.env"
           "AKIA1234567890ABCD12" "abcDEF1234567890+/==").
  - intros A m. reflexivity.
  - vm_compute. auto 10.
Defined.

(** ** The main goroutine of src/unnamed/part_000 *)

Section MainGoroutine.
Variable range_order : range_fn.
Variable w : World.
Variable repoPath : string.
Variable commitHashes : list string.

Local Abbreviation run := (Part000.run range_order w repoPath commitHashes).

Lemma run_app sched1 sched2 s :
  run (sched1 ++ sched2) s
  = match run sched1 s with
    | Some s' => run sched2 s'
    | None => None
    end.
Proof.
  revert s. induction sched1 as [|t sched1 IH]; intros s; [done|].
  cbn [app Part000.run]. destruct (Part000.step _ _ _ _ s t); [apply IH|done].
Qed.

Lemma step_spawn wt h rest i goroutines :
  Part000.step range_order w repoPath commitHashes
    (main_only (Part000.Spawning i (h :: rest)) goroutines wt []) Part000.TMain
  = Some (main_only (Part000.Spawning (S i) rest)
            (goroutines ++ [{| Part000.cg_index := i; Part000.cg_commit := h;
                               Part000.cg_pc := Part000.AtCheckout |}]) wt []).
Proof. reflexivity. Qed.

Lemma step_select wt goroutines n :
  Part000.step range_order w repoPath commitHashes
    (main_only (Part000.Selecting (S n)) goroutines wt []) Part000.TMain
  = Some (main_only (Part000.Selecting n) goroutines wt []).
Proof. reflexivity. Qed.

(** [main] alone starting its goroutines. *)
Lemma run_spawning wt rest i goroutines :
  run (replicate (length rest) Part000.TMain)
      (main_only (Part000.Spawning i rest) goroutines wt [])
  = Some (main_only (Part000.Spawning (i + length rest) [])
            (goroutines ++ spawned i rest) wt []).
Proof.
  revert i goroutines. induction rest as [|h rest IH]; intros i goroutines.
  { cbn. by rewrite Nat.add_0_r, app_nil_r. }
  cbn [length replicate Part000.run spawned]. rewrite step_spawn, IH, <- app_assoc.
  cbn [app]. by replace (S i + length rest) with (i + S (length rest)) by lia.
Qed.

(** [main] alone going through its receives while the channel is empty. *)
Lemma run_selecting wt goroutines n :
  run (replicate n Part000.TMain) (main_only (Part000.Selecting n) goroutines wt [])
  = Some (main_only (Part000.Selecting 0) goroutines wt []).
Proof.
  induction n as [|n IH]; [done|].
  cbn [replicate Part000.run]. by rewrite step_select.
Qed.

Lemma run_main_alone wt :
  run (replicate (length commitHashes) Part000.TMain ++ [Part000.TMain]
       ++ replicate (length commitHashes) Part000.TMain ++ [Part000.TMain])
      (Part000.init commitHashes wt)
  = Some (main_only (Part000.Exited Done) (spawned 0 commitHashes) wt
            [EvPrint no_valid_keys_line;
             EvPrint (Part000.total_time_line (elapsed w))]).
Proof.
  change (Part000.init commitHashes wt)
    with (main_only (Part000.Spawning 0 commitHashes) [] wt []).
  rewrite run_app, run_spawning. cbv beta iota. cbn [app Nat.add].
  change (run (Part000.TMain :: ?sched)
              (main_only (Part000.Spawning (length commitHashes) [])
                 (spawned 0 commitHashes) wt []))
    with (run sched (main_only (Part000.Selecting (length commitHashes))
                       (spawned 0 commitHashes) wt [])).
  by rewrite run_app, run_selecting.
Qed.
End MainGoroutine.

Lemma spawned_at_checkout i rest :
  Forall (fun g => Part000.cg_pc g = Part000.AtCheckout) (spawned i rest)
  /\ length (spawned i rest) = length rest.
Proof.
  revert i. induction rest as [|h rest IH]; intros i; [by split; [constructor|]|].
  destruct (IH (S i)) as [Hall Hlen]. split; [by constructor|]. cbn. by rewrite Hlen.
Qed.

(** X11.  In src/unnamed/part_000 [main] does not wait for its
    goroutines: whatever the commit list, there is a run in which it goes
    through its receives before any goroutine has moved and returns, all
    it has printed being the line for no valid key and the line of the
    time taken, no commit having been checked out, scanned or
    validated. *)
Theorem part000_main_need_not_wait range_order w repoURL repoPath commitHashes :
  String.eqb repoURL "" = false ->
  cloneRepo w repoURL = Ok repoPath ->
  getCommitHashes w repoPath = Ok commitHashes ->
  exists s,
    Part000.reachable range_order w repoURL s
    /\ Part000.st_main s = Part000.Exited Done
    /\ Part000.st_trace s
       = [EvPrint no_valid_keys_line; EvPrint (Part000.total_time_line (elapsed w))]
    /\ length (Part000.st_commits s) = length commitHashes
    /\ Forall (fun g => Part000.cg_pc g = Part000.AtCheckout) (Part000.st_commits s).
Proof.
  intros Hurl Hclone Hlog.
  exists (main_only (Part000.Exited Done) (spawned 0 commitHashes) (cloned w)
            [EvPrint no_valid_keys_line;
             EvPrint (Part000.total_time_line (elapsed w))]).
  split.
  - exists repoPath, commitHashes. eexists. split; [done|]. split; [done|].
    split; [done|]. apply run_main_alone.
  - destruct (spawned_at_checkout 0 commitHashes) as [Hall Hlen]. by cbn.
Qed.

Lemma part000_main_need_not_wait_witness :
  exists s,
    Part000.reachable Examples.in_map_order Examples.two_commits Examples.url s
    /\ Part000.st_main s = Part000.Exited Done
    /\ Part000.st_trace s
       = [EvPrint no_valid_keys_line; EvPrint (Part000.total_time_line "1.23s")]
    /\ length (Part000.st_commits s) = length ["c1"; "c2"]
    /\ Forall (fun g => Part000.cg_pc g = Part000.AtCheckout) (Part000.st_commits s).
Proof.
  apply (part000_main_need_not_wait Examples.in_map_order Examples.two_commits
           Examples.url "/tmp/repo-clone-1" ["c1"; "c2"]); vm_compute; reflexivity.
Defined.

(** ** The per-commit goroutines of src/unnamed/part_000 *)

Lemma checkouts_append t1 t2 : checkouts (t1 ++ t2) = checkouts t1 ++ checkouts t2.
Proof. apply flat_map_app. Qed.

Lemma checkouts_In trace i commitHash :
  In (EvCheckout i commitHash) trace <-> In (i, commitHash) (checkouts trace).
Proof.
  unfold checkouts. rewrite in_flat_map. split.
  - intros Hin. exists (EvCheckout i commitHash). split; [done|by left].
  - intros (e & Hin & He). destruct e; try done. by destruct He as [[= -> ->]|[]].
Qed.

(** Reads the fields of a state that is given in full. *)
Ltac state_fields :=
  unfold Part000.set_commit;
  cbn [Part000.st_main Part000.st_commits Part000.st_keys Part000.st_wt
       Part000.st_errChan Part000.st_validKeysFound Part000.st_trace].

Section Goroutines.
Variable range_order : range_fn.
Variable w : World.
Variable repoPath : string.
Variable commitHashes : list string.

Lemma init_inv wt : goroutines_inv commitHashes (Part000.init commitHashes wt).
Proof.
  split; [done|]. split; [done|]. split; [constructor|].
  by intros i rest [= <- <-].
Qed.

Lemma step_main_inv s s' :
  Part000.step_main w commitHashes s = Some s' ->
  goroutines_inv commitHashes s -> goroutines_inv commitHashes s'.
Proof.
  unfold Part000.step_main. intros Hstep (Hgs & Hco & Hnd & Hmain).
  destruct (Part000.st_main s) as [i [|h rest]|[|todo]|e] eqn:Hpc.
  - injection Hstep as <-. split; [|split; [|split]]; state_fields; try done.
  - injection Hstep as <-. destruct (Hmain i (h :: rest) eq_refl) as [Hlen Hdrop].
    split; [|split; [|split]]; state_fields.
    + intros n g [Hold|[Hn Hnew]]%lookup_app_Some; [by apply Hgs|].
      rewrite Hlen in *. destruct (n - i) as [|?] eqn:Hni; [|done].
      injection Hnew as <-. cbn. assert (n = i) as -> by lia. split; [done|].
      pose proof (lookup_drop commitHashes i 0) as Hat.
      rewrite Hdrop, Nat.add_0_r in Hat. done.
    + intros j c (g & Hg & Hrest)%Hco. exists g. split; [|done].
      by apply lookup_app_l_Some.
    + done.
    + intros ? ? [= <- <-]. split; [rewrite length_app; cbn; lia|].
      replace (S i) with (i + 1) by lia. by rewrite <- drop_drop, Hdrop.
  - injection Hstep as <-. split; [|split; [|split]]; state_fields; try done.
    + rewrite checkouts_append. intros j c Hin. apply Hco.
      apply in_app_or in Hin as [?|Hin]; [done|].
      by destruct (Part000.st_validKeysFound s).
    + rewrite checkouts_append.
      by destruct (Part000.st_validKeysFound s); cbn; rewrite app_nil_r.
  - destruct (Part000.st_errChan s); injection Hstep as <-;
      (split; [|split; [|split]]); state_fields; done.
  - done.
Qed.

(** A step of the n-th per-commit goroutine keeps the invariant when it
    does not go back to the checkout, and adds a checkout to the trace
    only when it comes from there. *)
Lemma set_commit_inv s n g pc wt errChan keys events :
  goroutines_inv commitHashes s ->
  Part000.st_commits s !! n = Some g ->
  pc <> Part000.AtCheckout ->
  checkouts events = []
  \/ (Part000.cg_pc g = Part000.AtCheckout
      /\ checkouts events = [(Part000.cg_index g, Part000.cg_commit g)]) ->
  goroutines_inv commitHashes
    (Part000.set_commit s n (Part000.at_pc g pc) wt errChan keys events).
Proof.
  intros (Hgs & Hco & Hnd & Hmain) Hg Hpc Hevents.
  pose proof (lookup_lt_Some _ _ _ Hg) as Hlt.
  destruct (Hgs n g Hg) as [Hidx Hcommit].
  assert (forall j c,
            In (j, c) (checkouts (Part000.st_trace s)) ->
            exists g',
              <[n := Part000.at_pc g pc]> (Part000.st_commits s) !! j = Some g'
              /\ Part000.cg_commit g' = c /\ Part000.cg_pc g' <> Part000.AtCheckout)
    as Hold.
  { intros j c (g0 & Hg0 & Hc & Hpc0)%Hco. destruct (decide (j = n)) as [->|Hne].
    - exists (Part000.at_pc g pc). rewrite list_lookup_insert_eq by done.
      split; [done|]. split; [|done]. cbn. congruence.
    - exists g0. by rewrite list_lookup_insert_ne. }
  split; [|split; [|split]]; state_fields.
  - intros n' g' [(-> & <- & _)|[Hne Hg']]%list_lookup_insert_Some; [done|].
    by apply Hgs.
  - rewrite checkouts_append.
    intros j c [Hin|Hin]%in_app_or; [by apply Hold|].
    destruct Hevents as [Hnone|[Hat Hone]]; [by rewrite Hnone in Hin|].
    rewrite Hone in Hin. destruct Hin as [[= <- <-]|[]].
    exists (Part000.at_pc g pc). rewrite Hidx, list_lookup_insert_eq by done. done.
  - rewrite checkouts_append, fmap_app.
    destruct Hevents as [->|[Hat ->]]; [by rewrite app_nil_r|].
    apply NoDup_app. split; [done|]. split; [|by apply NoDup_singleton].
    intros j Hj ->%list_elem_of_singleton. cbn in Hj.
    apply list_elem_of_fmap in Hj as ([j c] & Hjn & Hin). cbn in Hjn.
    apply list_elem_of_In, Hco in Hin as (g0 & Hg0 & _ & Hpc0).
    rewrite <- Hjn, Hidx, Hg in Hg0. injection Hg0 as <-. done.
  - intros i rest Hpc'. rewrite length_insert. by apply Hmain.
Qed.

Lemma reads_no_checkout i seen (paths : list string) :
  checkouts (map (fun path => EvRead i path seen) paths) = [].
Proof. by induction paths. Qed.

Lemma step_commit_inv s n s' :
  Part000.step_commit range_order w repoPath s n = Some s' ->
  goroutines_inv commitHashes s -> goroutines_inv commitHashes s'.
Proof.
  unfold Part000.step_commit. intros Hstep Hinv.
  destruct (Part000.st_commits s !! n) as [g|] eqn:Hg; [|done].
  destruct (Part000.cg_pc g) as [| |[|[[path id] secret] keys]|msg|] eqn:Hpc.
  - destruct (checkoutCommit w repoPath (Part000.cg_commit g));
      injection Hstep as <-; apply set_commit_inv; try done; by right.
  - destruct (searchIAMKeysInRepo _ _ _);
      injection Hstep as <-; apply set_commit_inv; try done;
      left; apply reads_no_checkout.
  - injection Hstep as <-. apply set_commit_inv; try done. by left.
  - injection Hstep as <-. apply set_commit_inv; try done. by left.
  - destruct (Part000.st_errChan s); [done|].
    injection Hstep as <-. apply set_commit_inv; try done. by left.
  - done.
Qed.

Lemma step_key_inv s n s' :
  Part000.step_key w s n = Some s' ->
  goroutines_inv commitHashes s -> goroutines_inv commitHashes s'.
Proof.
  unfold Part000.step_key. intros Hstep (Hgs & Hco & Hnd & Hmain).
  destruct (Part000.st_keys s !! n) as [k|]; [|done].
  destruct (Part000.kg_done k); [done|]. injection Hstep as <-.
  assert (checkouts
            (EvValidate (Part000.kg_index k) (Part000.kg_path k)
               (Part000.kg_accessKeyID k) (Part000.kg_secretAccessKey k)
             :: (if Part000.validateIAMKey w (Part000.kg_accessKeyID k)
                      (Part000.kg_secretAccessKey k)
                 then [EvPrint (valid_key_line (Part000.kg_commit k)
                                  (Part000.kg_accessKeyID k))]
                 else [])) = []) as Hnone
    by (by destruct (Part000.validateIAMKey _ _ _)).
  split; [|split; [|split]]; state_fields;
    rewrite ?checkouts_append, ?Hnone, ?app_nil_r; done.
Qed.

Lemma run_inv sched s s' :
  Part000.run range_order w repoPath commitHashes sched s = Some s' ->
  goroutines_inv commitHashes s -> goroutines_inv commitHashes s'.
Proof.
  revert s. induction sched as [|t sched IH]; intros s; cbn [Part000.run].
  { by intros [= <-]. }
  destruct (Part000.step _ _ _ _ s t) as [s1|] eqn:Hstep; [|done].
  intros Hrun Hinv. apply (IH s1 Hrun). unfold Part000.step in Hstep.
  destruct (Part000.st_main s); [| |done]; destruct t;
    eauto using step_main_inv, step_commit_inv, step_key_inv.
Qed.
End Goroutines.

(** X12.  In every run of src/unnamed/part_000, whatever the schedule,
    the checkouts made are checkouts of commits of the list, each by the
    goroutine of its own place in the list, and no place is checked out
    twice. *)
Theorem part000_checkouts_once range_order w repoURL s :
  Part000.reachable range_order w repoURL s ->
  exists repoPath commitHashes,
    cloneRepo w repoURL = Ok repoPath
    /\ getCommitHashes w repoPath = Ok commitHashes
    /\ (forall i commitHash,
          In (EvCheckout i commitHash) (Part000.st_trace s) ->
          commitHashes !! i = Some commitHash)
    /\ NoDup (checkouts (Part000.st_trace s)).*1.
Proof.
  intros (repoPath & commitHashes & sched & _ & Hclone & Hlog & Hrun).
  exists repoPath, commitHashes. split; [done|]. split; [done|].
  apply run_inv in Hrun as (Hgs & Hco & Hnd & _); [|apply init_inv].
  split; [|done]. intros i h (g & Hg & <- & _)%checkouts_In%Hco.
  by apply Hgs in Hg as [_ ?].
Qed.

Lemma part000_checkouts_once_witness :
  exists s repoPath commitHashes,
    Part000.reachable Examples.in_map_order Examples.two_distinct_commits Examples.url s
    /\ checkouts (Part000.st_trace s) = [(0, "c1"); (1, "c2")]
    /\ cloneRepo Examples.two_distinct_commits Examples.url = Ok repoPath
    /\ getCommitHashes Examples.two_distinct_commits repoPath = Ok commitHashes
    /\ (forall i commitHash,
          In (EvCheckout i commitHash) (Part000.st_trace s) ->
          commitHashes !! i = Some commitHash)
    /\ NoDup (checkouts (Part000.st_trace s)).*1.
Proof.
  pose (sched := [Part000.TMain; Part000.TMain; Part000.TCommit 0; Part000.TCommit 1;
                  Part000.TCommit 0]).
  pose (start := Part000.init ["c1"; "c2"] (cloned Examples.two_distinct_commits)).
  pose (s := default start
               (Part000.run Examples.in_map_order Examples.two_distinct_commits
                  "/tmp/repo-clone-1" ["c1"; "c2"] sched start)).
  assert (Part000.reachable Examples.in_map_order Examples.two_distinct_commits
            Examples.url s) as Hreach.
  { exists "/tmp/repo-clone-1", ["c1"; "c2"], sched.
    split; [vm_compute; reflexivity|]. split; [vm_compute; reflexivity|].
    split; vm_compute; reflexivity. }
  exists s. destruct (part000_checkouts_once _ _ _ _ Hreach)
    as (repoPath & commitHashes & H).
  exists repoPath, commitHashes. split; [exact Hreach|].
  split; [vm_compute; reflexivity|exact H].
Defined.

(** ** searchIAMKeysInFile: no assignment is passed over *)

(** Under case folding the texts a byte matches do not hide one
    another: each of them is found in front of any text. *)
Lemma first_strip_orbit a x u :
  In x (fold_orbit a) -> first_strip (fold_orbit a) (x +:+ u) = Some u.
Proof.
  destruct a as [[] [] [] [] [] [] [] []]; vm_compute;
    intros H; repeat destruct H as [<-|H]; try done; vm_compute; reflexivity.
Qed.

Lemma lit_fold_complete p name t :
  spelling p name -> lit_fold p (name +:+ t) = Some t.
Proof.
  induction 1 as [|a p x u Hx _ IH]; [done|].
  cbn [lit_fold]. by rewrite string_app_assoc, first_strip_orbit.
Qed.

Lemma lit_step_complete fold p name t :
  lang (Lit fold p) name -> lit_step fold p (name +:+ t) = Some t.
Proof.
  inversion 1; subst; cbn [lit_step];
    [apply strip_prefix_complete|by apply lit_fold_complete].
Qed.

Lemma run_nonempty c u : lang (Plus c) u -> u <> "".
Proof.
  assert (forall x, cls_rune c x -> x <> "") as Hrune by (by intros x [a Ha| |]).
  inversion 1 as [| | | | |? ? Hrn|? x v Hrn| | | |]; subst; [by apply Hrune|].
  apply Hrune in Hrn. by destruct x.
Qed.

(** Where the literal stands before a byte of the class, the pattern
    matches, and the match is not empty. *)
Lemma match_at_assignment_complete fold p c name a t :
  lang (Lit fold p) name -> cc_byte c a = true ->
  exists (m : list string) n,
    match_at (Cat (Lit fold p) (Cap 1 (Plus c))) (name +:+ String a t) = Some (m, S n).
Proof.
  intros Hname Ha.
  assert (exists m len,
            match_at (Cat (Lit fold p) (Cap 1 (Plus c))) (name +:+ String a t)
            = Some (m, len)) as (m & len & Hm).
  { unfold match_at. cbn [rmatch]. rewrite (lit_step_complete _ _ _ _ Hname).
    cbn [String.length plus_loop cls_step]. rewrite Ha.
    destruct (plus_loop _ c t _) as [[t' cs]|]; eauto. }
  exists m. pose proof Hm as (name' & value & rest & _ & _ & Hvalue & _ & _ & ->)
    %match_at_assignment.
  apply run_nonempty in Hvalue. rewrite string_app_length in Hm.
  destruct value as [|b value]; [done|]. cbn [String.length] in Hm.
  rewrite Nat.add_succ_r in Hm. eauto.
Qed.

(** A match somewhere in the input is never lost by [find_all]: an
    earlier match may take its place, but the result is not empty. *)
Lemma find_all_nonempty re before rest (m : list string) n :
  match_at re rest = Some (m, S n) -> find_all re (before +:+ rest) 0 <> [].
Proof.
  intros Hm. induction before as [|a before IH].
  - change ("" +:+ rest) with rest. destruct rest as [|a t].
    + unfold match_at in Hm. by destruct (rmatch _ _ _ _) as [[[] ?]|].
    + cbn [find_all]. by rewrite Hm.
  - rewrite string_app_cons. cbn [find_all].
    by destruct (match_at re (String a _)) as [[m' [|len']]|].
Qed.

(** X13.  [searchIAMKeysInFile] of src/main.go passes over no file that
    holds both assignments: if the content holds AWS_ACCESS_KEY_ID=
    followed by an upper-case letter or a digit, and
    AWS_SECRET_ACCESS_KEY= in any letter case followed by a byte other
    than white space, the map returned is not empty. *)
Theorem main_extract_complete content :
  (exists before a rest,
      content = before +:+ "AWS_ACCESS_KEY_ID=" +:+ String a rest
      /\ is_upper a || is_digit a = true) ->
  (exists before name b rest,
      content = before +:+ name +:+ String b rest
      /\ spelling "AWS_SECRET_ACCESS_KEY=" name
      /\ is_space b = false) ->
  0 < size (extract Main.pats content).
Proof.
  intros (before & a & rest & Hid & Ha) (before' & name & b & rest' & Hsecret & Hname & Hb).
  destruct (match_at_assignment_complete false "AWS_ACCESS_KEY_ID=" cc_upper_digit
              "AWS_ACCESS_KEY_ID=" a rest) as (m & n & Hm); [constructor|done|].
  destruct (match_at_assignment_complete true "AWS_SECRET_ACCESS_KEY=" cc_non_space
              name b rest') as (m' & n' & Hm'); [by apply lang_lit_fold|by cbn [cc_byte cc_non_space]; rewrite Hb|].
  apply (find_all_nonempty _ before) in Hm. apply (find_all_nonempty _ before') in Hm'.
  rewrite <- Hid in Hm. rewrite <- Hsecret in Hm'.
  fold (FindAllStringSubmatch Main.accessKeyIDPattern content) in Hm.
  fold (FindAllStringSubmatch Main.secretAccessKeyPattern content) in Hm'.
  destruct (FindAllStringSubmatch Main.accessKeyIDPattern content) as [|m0 ids] eqn:Hids;
    [done|].
  assert (is_Some (extract Main.pats content !! idx m0 1)) as [secret Hentry].
  { rewrite extract_lookup. cbn [pat_accessKeyID pat_secretAccessKey Main.pats].
    rewrite Hids, decide_True by (by left).
    destruct (last _) as [m1|] eqn:Hlast; [by eauto|].
    by apply last_None in Hlast. }
  destruct (decide (extract Main.pats content = ∅)) as [Hempty|Hne].
  - by rewrite Hempty, lookup_empty in Hentry.
  - apply map_size_non_empty_iff in Hne. lia.
Qed.

Lemma main_extract_complete_witness : 0 < size (extract Main.pats Examples.scenario).
Proof.
  apply main_extract_complete.
  - exists "", "A"%char,
      ("KIA1234567890ABCD12" +:+ LF +:+ "AWS_SECRET_ACCESS_KEY=abcDEF1234567890+/==").
    split; vm_compute; reflexivity.
  - exists ("AWS_ACCESS_KEY_ID=AKIA1234567890ABCD12" +:+ LF),
      "AWS_SECRET_ACCESS_KEY=", "a"%char, "bcDEF1234567890+/==".
    split; [vm_compute; reflexivity|]. split; [|vm_compute; reflexivity].
    repeat (apply (spelling_cons _ _ (String _ "")); [vm_compute; auto|]).
    constructor.
Defined.
